(** * EP_Spiral_Transfers: the low-thrust spiral propagator of [trajectory.cpp]

    The program integrates the planar motion of a continuously thrusting
    spacecraft around the Sun with a fixed time step, until the heliocentric
    radius reaches the radius of the target orbit.

    Every C++ [double] is a binary64 number of the kernel ([PrimFloat.float]):
    [+], [-], [*], [/] and [sqrt] are the correctly rounded IEEE-754
    operations, comparisons are the IEEE ones (false on NaN, [-0 == +0]), so
    the definitions below evaluate as the program does when it is compiled
    for strict binary64 arithmetic (each operation rounded once, no fused
    multiply-add), up to the payload of a NaN, which the kernel does not
    record.  The one operation the source takes from the C library,
    [std::pow], is a parameter of the development.

    The file has three parts: the program ([Vec2] and its operators, the
    constants, the state and the loop of [main]); facts of binary64
    arithmetic, proved from the specification of the primitive operations
    ([FloatAxioms], [SpecFloat]); and the properties of the program. *)

From Stdlib Require Import Floats ZArith NArith Bool List String Lia.
Import ListNotations.

#[local] Set Warnings "-inexact-float".
#[local] Open Scope float_scope.

(** ** Exceptions and fallible results *)

(** The exception the program throws itself: [std::runtime_error] with its
    text.  Exceptions of the library ([std::bad_alloc]) are not modelled. *)
Inductive exn : Type :=
| runtime_error (what : string).

Inductive result (A : Type) : Type :=
| Ok (a : A)
| Throw (e : exn).

Arguments Ok {A} a.
Arguments Throw {A} e.

Definition bind {A B : Type} (c : result A) (k : A -> result B) : result B :=
  match c with
  | Ok a => k a
  | Throw e => Throw e
  end.

Notation "x <- c ;; k" := (bind c (fun x => k))
  (at level 61, c at next level, right associativity).

(** ** [Vec2 = std::array<double, 2>] and its operators *)

Record Vec2 : Type := vec2 { at0 : float; at1 : float }.

(** [Vec2 operator+(const Vec2& a, const Vec2& b)] *)
Definition vadd (a b : Vec2) : Vec2 :=
  vec2 (at0 a + at0 b) (at1 a + at1 b).

(** [Vec2 operator-(const Vec2& a, const Vec2& b)] *)
Definition vsub (a b : Vec2) : Vec2 :=
  vec2 (at0 a - at0 b) (at1 a - at1 b).

Definition division_by_zero : exn :=
  runtime_error "Vector division by zero!".

(** [Vec2 operator/(const Vec2& v, double k)]: throws when [k == 0.0]. *)
Definition vdiv (v : Vec2) (k : float) : result Vec2 :=
  if k =? 0 then Throw division_by_zero
  else Ok (vec2 (at0 v / k) (at1 v / k)).

(** [Vec2 operator*(double k, const Vec2& v)] *)
Definition smul (k : float) (v : Vec2) : Vec2 :=
  vec2 (k * at0 v) (k * at1 v).

(** [Vec2 operator*(const Vec2& v, double k)] *)
Definition vmul (v : Vec2) (k : float) : Vec2 :=
  vec2 (at0 v * k) (at1 v * k).

(** [double norm(const std::array<double, 2>& r)] *)
Definition norm (r : Vec2) : float :=
  sqrt (at0 r * at0 r + at1 r * at1 r).

(** ** The constants of [main] *)

(** The locals that [main] initialises from literals.  The README has the
    user edit thrust and specific impulse per thruster; the record keeps all
    of them, and the target radius, as fields so that statements can range
    over them.  [shipped] below is the configuration of the source. *)
Record Config : Type := config {
  mu : float;        (* gravitational parameter of the Sun, km^3/s^2 *)
  r_earth : float;   (* initial radius, km *)
  r_mars : float;    (* target radius, km *)
  T : float;         (* thrust, kN *)
  Isp : float;       (* specific impulse, s *)
  m0 : float;        (* initial mass, kg *)
  g : float;         (* standard gravity, km/s^2 *)
  dt : float         (* time step, s *)
}.

Definition shipped : Config :=
  {| mu := 1.327e11;
     r_earth := 1.496e8;
     r_mars := 1.52 * 1.496e8;
     T := 450e-6;
     Isp := 9000;
     m0 := 10000;
     g := 9.81e-3;
     dt := 50.0 |}.

(** Variants of [shipped] used to evaluate the model: one constant edited,
    the others as in the source. *)
Definition massless : Config :=       (* m0 = 0 *)
  config 1.327e11 1.496e8 (1.52 * 1.496e8) 450e-6 9000 0 9.81e-3 50.

Definition at_target : Config :=      (* r_mars = r_earth *)
  config 1.327e11 1.496e8 1.496e8 450e-6 9000 10000 9.81e-3 50.

Definition coarse : Config :=         (* dt = 4e6 *)
  config 1.327e11 1.496e8 (1.52 * 1.496e8) 450e-6 9000 10000 9.81e-3 4e6.

Definition at_centre : Config :=      (* r_earth = 0 *)
  config 1.327e11 0 (1.52 * 1.496e8) 450e-6 9000 10000 9.81e-3 50.

Definition faint : Config :=          (* T = 2^-1074, the least positive double *)
  config 1.327e11 1.496e8 (1.52 * 1.496e8) 0x1p-1074 9000 10000 9.81e-3 50.

Definition heavy : Config :=          (* m0 = 1e13 *)
  config 1.327e11 1.496e8 (1.52 * 1.496e8) 450e-6 9000 1e13 9.81e-3 50.

Definition light : Config :=          (* m0 = 1e-4 *)
  config 1.327e11 1.496e8 (1.52 * 1.496e8) 450e-6 9000 1e-4 9.81e-3 50.

Definition fine : Config :=           (* dt = 0.1 *)
  config 1.327e11 1.496e8 (1.52 * 1.496e8) 450e-6 9000 10000 9.81e-3 0.1.

Definition huge_step : Config :=      (* dt = 1e300 *)
  config 1.327e11 1.496e8 (1.52 * 1.496e8) 450e-6 9000 10000 9.81e-3 1e300.

Definition still : Config :=          (* mu = 0 *)
  config 0 1.496e8 (1.52 * 1.496e8) 450e-6 9000 10000 9.81e-3 50.

Definition behind : Config :=         (* r_mars = -1 *)
  config 1.327e11 1.496e8 (-1) 450e-6 9000 10000 9.81e-3 50.

Definition unweighed : Config :=      (* m0 = NaN *)
  config 1.327e11 1.496e8 (1.52 * 1.496e8) 450e-6 9000 nan 9.81e-3 50.

(** [double mdot = T / (Isp * g);] *)
Definition mdot (c : Config) : float := T c / (Isp c * g c).

(** ** The mutable locals of [main] *)

Record State : Type := state {
  r : Vec2;          (* position, km *)
  v : Vec2;          (* velocity, km/s *)
  m : float;         (* mass, kg *)
  t : float;         (* elapsed time, s *)
  x : list float;    (* std::vector<double> x *)
  y : list float     (* std::vector<double> y *)
}.

(** Lines 50-57: the state before the loop. *)
Definition init (c : Config) : State :=
  let r := vec2 (r_earth c) 0 in
  {| r := r;
     v := vec2 0 (sqrt (mu c / r_earth c));
     m := m0 c;
     t := 0;
     x := [at0 r];
     y := [at1 r] |}.

(** The loop condition [norm(r) < r_mars]. *)
Definition guard (c : Config) (s : State) : bool :=
  norm (r s) <? r_mars c.

(** What [main] prints after the loop, before formatting. *)
Record Report : Type := report {
  reached_mars : bool;    (* norm(r) >= r_mars ? "Yes" : "No" *)
  final_radius : float;   (* norm(r) *)
  final_mass : float;     (* m *)
  travel_time : float     (* t / 3.154e7 *)
}.

Definition summary (c : Config) (s : State) : Report :=
  {| reached_mars := r_mars c <=? norm (r s);
     final_radius := norm (r s);
     final_mass := m s;
     travel_time := t s / 3.154e7 |}.

Section Propagation.

(** [std::pow] of the C library, called as [std::pow(norm(r), 3)]. *)
Variable pow : float -> float -> float.

Variable c : Config.

(** [(-mu / std::pow(norm(r), 3)) * r] *)
Definition a_grav (s : State) : Vec2 :=
  smul (- mu c / pow (norm (r s)) 3) (r s).

(** [(T / m) * (v / norm(v))] *)
Definition a_thrust (s : State) : result Vec2 :=
  u <- vdiv (v s) (norm (v s)) ;;
  Ok (smul (T c / m s) u).

(** Lines 60-67: the total acceleration at the current state. *)
Definition accel (s : State) : result Vec2 :=
  let ag := a_grav s in
  at_ <- a_thrust s ;;
  Ok (vadd ag at_).

(** Lines 60-79: one execution of the loop body.  The two [push_back]
    calls are list appends; the failure of an allocation
    ([std::bad_alloc]) is not modelled. *)
Definition body (s : State) : result State :=
  a <- accel s ;;
  let v' := vadd (v s) (vmul a (dt c)) in
  let r' := vadd (r s) (vmul v' (dt c)) in
  let m' := m s - mdot c * dt c in
  let t' := t s + dt c in
  Ok {| r := r'; v := v'; m := m'; t := t';
        x := x s ++ [at0 r'];
        y := y s ++ [at1 r'] |}.

(** The [while] loop, bounded by [fuel] executions of the body:
    [None] when the bound is reached with the condition still true. *)
Fixpoint loop (fuel : nat) (s : State) : option (result State) :=
  if guard c s then
    match fuel with
    | O => None
    | S k =>
        match body s with
        | Ok s' => loop k s'
        | Throw e => Some (Throw e)
        end
    end
  else Some (Ok s).

(** The state after [n] completed iterations, when there are that many:
    each one found the condition true and its body did not throw. *)
Fixpoint iterations (n : nat) (s : State) : option State :=
  match n with
  | O => Some s
  | S k =>
      if guard c s then
        match body s with
        | Ok s' => iterations k s'
        | Throw _ => None
        end
      else None
  end.

(** [main]: what is printed at normal termination; an exception of the
    body leaves [main] uncaught. *)
Definition main (fuel : nat) : option (result Report) :=
  match loop fuel (init c) with
  | None => None
  | Some (Throw e) => Some (Throw e)
  | Some (Ok s) => Some (Ok (summary c s))
  end.

End Propagation.

(** A stand-in for [std::pow] used to run the model: the cube by two
    multiplications when the exponent is 3.  The C library's result may
    differ from it in the last place; the theorems below hold for every
    [pow] and use this one only to evaluate at concrete inputs. *)
Definition pow_cube (b e : float) : float :=
  if e =? 3 then b * b * b else nan.

(** The value of [t] after [n] executions of [t = t + dt] from [0.0]. *)
Definition elapsed (h : float) (n : nat) : float :=
  Nat.iter n (fun t => t + h) 0.

(** The value of [m] after [n] executions of [m = m - mdot * dt]. *)
Definition depleted (c : Config) (n : nat) : float :=
  Nat.iter n (fun m => m - mdot c * dt c) (m0 c).

(** [n] as a [double], for [n] below [2^63]. *)
Definition double_of_nat (n : nat) : float :=
  of_uint63 (Uint63.of_Z (Z.of_nat n)).

(** ** The two first-order schemes the spec distinguishes

    Both take the acceleration [a] of the old state and the step [h] and
    return the new (position, velocity). *)

(** Semi-implicit (symplectic) Euler: the position uses the new velocity. *)
Definition semi_implicit_euler (a : Vec2) (h : float) (rv : Vec2 * Vec2)
  : Vec2 * Vec2 :=
  let v' := vadd (snd rv) (vmul a h) in
  (vadd (fst rv) (vmul v' h), v').

(** Classic explicit Euler: both updates use the old state. *)
Definition explicit_euler (a : Vec2) (h : float) (rv : Vec2 * Vec2)
  : Vec2 * Vec2 :=
  (vadd (fst rv) (vmul (snd rv) h), vadd (snd rv) (vmul a h)).

(** ** Predicates on the specification of binary64

    [Prim2SF] maps a [double] to its sign, mantissa and exponent
    ([spec_float]); the predicates below are read on that form. *)

Definition SFis_nan (a : spec_float) : bool :=
  match a with S754_nan => true | _ => false end.

(** [a] is a zero, a finite number or an infinity of sign [sx]. *)
Definition SFsign_is (sx : bool) (a : spec_float) : Prop :=
  match a with
  | S754_zero s | S754_infinity s | S754_finite s _ _ => s = sx
  | S754_nan => False
  end.

Definition SFpositive (a : spec_float) : bool :=
  match a with
  | S754_infinity false | S754_finite false _ _ => true
  | _ => false
  end.

Definition SFnonfinite (a : spec_float) : bool :=
  match a with
  | S754_infinity _ | S754_nan => true
  | _ => false
  end.

(** [a], when strictly positive, is finite with an exponent of at most [E]. *)
Definition SFexp_le (E : Z) (a : spec_float) : Prop :=
  match a with
  | S754_finite false _ e => (e <= E)%Z
  | _ => SFpositive a = false
  end.

(** [mrs] is [D] shifted right by [k] places: its mantissa is the floor of
    [D / 2^k], and the round and sticky bits are both clear exactly when no
    bit was lost. *)
Definition shr_inv (D k : Z) (mrs : shr_record) : Prop :=
  (0 <= shr_m mrs)%Z /\
  (shr_m mrs * 2 ^ k <= D < (shr_m mrs + 1) * 2 ^ k)%Z /\
  (shr_r mrs || shr_s mrs = false -> D = (shr_m mrs * 2 ^ k)%Z) /\
  (shr_r mrs || shr_s mrs = true -> (shr_m mrs * 2 ^ k < D)%Z).

(** [a] is a zero or a finite number of sign [sx] that is below
    [(mx, ex)] in the order of (exponent, mantissa), its mantissa at most
    [K] when the exponents agree. *)
Definition SFbelow (sx : bool) (mx : positive) (ex K : Z) (a : spec_float)
  : Prop :=
  match a with
  | S754_zero s => s = sx
  | S754_finite s mr er =>
      s = sx /\ ((er < ex)%Z \/ (er = ex /\ (Z.pos mr <= K)%Z))
  | _ => False
  end.

(** The double of a non-negative integer. *)
Definition Z2SF (N : Z) : spec_float := binary_normalize prec emax N 0 false.

(** The spacing of the doubles at [a] is at most [d]: both are strictly
    positive and finite, and the exponent of [a] is below the position of
    the leading bit of [d]. *)
Definition spacing_le (a d : float) : bool :=
  match Prim2SF a, Prim2SF d with
  | S754_finite false _ ea, S754_finite false md ed =>
      (ea <? Z.pos (digits2_pos md) + ed)%Z
  | _, _ => false
  end.

(** [a] is a zero of either sign. *)
Definition SFis_zero (a : spec_float) : bool :=
  match a with S754_zero _ => true | _ => false end.

(** * Facts of binary64 arithmetic used below *)

Module F64.

Lemma SFmul_comm a b : SF64mul a b = SF64mul b a.
Proof.
  unfold SF64mul, SFmul.
  destruct a as [sa|sa| |sa ma ea], b as [sb|sb| |sb mb eb];
    try reflexivity; try (now rewrite xorb_comm).
  now rewrite xorb_comm, Pos.mul_comm, Z.add_comm.
Qed.

Lemma mul_comm (a b : float) : a * b = b * a.
Proof.
  apply Prim2SF_inj. rewrite !mul_spec. apply SFmul_comm.
Qed.

(** [k == 0.0] holds for the two zeros and for nothing else. *)
Lemma eqb_zero_iff (k : float) :
  (k =? 0) = true <-> k = 0 \/ k = neg_zero.
Proof.
  rewrite FloatAxioms.eqb_spec. split.
  - intros H.
    assert (E : exists s, Prim2SF k = S754_zero s).
    { change (Prim2SF 0) with (S754_zero false) in H.
      destruct (Prim2SF k) as [s|s| |s mk ek]; try discriminate.
      - now exists s.
      - destruct s; discriminate.
      - destruct s; discriminate. }
    destruct E as [[|] E].
    + right. apply Prim2SF_inj. now rewrite E.
    + left. apply Prim2SF_inj. now rewrite E.
  - intros [-> | ->]; reflexivity.
Qed.

(** *** Comparisons *)

Lemma SFcompare_antisym (a b : spec_float) :
  SFcompare b a = option_map CompOpp (SFcompare a b).
Proof.
  destruct a as [sa|sa| |sa ma ea], b as [sb|sb| |sb mb eb]; simpl;
    try reflexivity;
    try (destruct sa; reflexivity); try (destruct sb; reflexivity);
    try (destruct sa, sb; reflexivity).
  destruct sa, sb; simpl; try reflexivity;
    rewrite (Z.compare_antisym ea eb);
    destruct (ea ?= eb)%Z; simpl; try reflexivity;
    first [ now rewrite (Pos.compare_cont_antisym ma mb Eq)
          | now rewrite (Pos.compare_cont_antisym mb ma Eq) ].
Qed.

Lemma SFcompare_None (a b : spec_float) :
  SFcompare a b = None <-> SFis_nan a = true \/ SFis_nan b = true.
Proof.
  destruct a as [sa|sa| |sa ma ea], b as [sb|sb| |sb mb eb]; simpl;
    split; intros H; try discriminate; auto;
    try (destruct H; discriminate).
Qed.

Lemma SFcompare_refl (a : spec_float) :
  SFcompare a a = if SFis_nan a then None else Some Eq.
Proof.
  destruct a as [sa|sa| |sa ma ea]; simpl; try reflexivity.
  - now destruct sa.
  - rewrite Z.compare_refl, Pos.compare_cont_refl. now destruct sa.
Qed.

Lemma is_nan_spec (a : float) : is_nan a = SFis_nan (Prim2SF a).
Proof.
  unfold is_nan. rewrite FloatAxioms.eqb_spec. unfold SFeqb.
  rewrite SFcompare_refl. now destruct (SFis_nan (Prim2SF a)).
Qed.

(** [b <= a] excludes [a < b]. *)
Lemma leb_ltb_false (a b : float) :
  (b <=? a) = true -> (a <? b) = false.
Proof.
  rewrite leb_spec, ltb_spec. unfold SFleb, SFltb.
  rewrite (SFcompare_antisym (Prim2SF a) (Prim2SF b)).
  now destruct (SFcompare (Prim2SF a) (Prim2SF b)) as [[ | | ]|].
Qed.

(** When [a < b] is false, [a >= b] holds unless an operand is a NaN. *)
Lemma not_ltb_geb (a b : float) :
  (a <? b) = false ->
  ((b <=? a) = true <-> is_nan a = false /\ is_nan b = false).
Proof.
  rewrite leb_spec, ltb_spec, !is_nan_spec. unfold SFleb, SFltb.
  rewrite (SFcompare_antisym (Prim2SF a) (Prim2SF b)).
  pose proof (SFcompare_None (Prim2SF a) (Prim2SF b)) as HN.
  destruct (SFcompare (Prim2SF a) (Prim2SF b)) as [[ | | ]|];
    simpl; intros H; try discriminate.
  - split; [intros _ | reflexivity].
    destruct (SFis_nan (Prim2SF a)), (SFis_nan (Prim2SF b)); auto;
      (assert (Some Eq = @None comparison) by (apply HN; auto); discriminate).
  - split; [intros _ | reflexivity].
    destruct (SFis_nan (Prim2SF a)), (SFis_nan (Prim2SF b)); auto;
      (assert (Some Gt = @None comparison) by (apply HN; auto); discriminate).
  - split; [discriminate |].
    intros [Ha Hb]. destruct HN as [HN _].
    destruct (HN eq_refl); congruence.
Qed.

(** *** Rounding keeps the sign *)

Lemma shr_1_nonneg (mrs : shr_record) :
  (0 <= shr_m mrs)%Z -> (0 <= shr_m (shr_1 mrs))%Z.
Proof.
  destruct mrs as [mm rr ss]. simpl.
  destruct mm as [|[p|p|]|p]; simpl; lia.
Qed.

Lemma iter_pos_shr_1_nonneg (n : positive) (mrs : shr_record) :
  (0 <= shr_m mrs)%Z -> (0 <= shr_m (SpecFloat.iter_pos shr_1 n mrs))%Z.
Proof.
  revert mrs. induction n as [n IH|n IH|]; intros mrs H; simpl.
  - apply IH, IH, shr_1_nonneg, H.
  - apply IH, IH, H.
  - apply shr_1_nonneg, H.
Qed.

Lemma shr_fexp_nonneg (mm e : Z) (l : location) :
  (0 <= mm)%Z -> (0 <= shr_m (fst (shr_fexp prec emax mm e l)))%Z.
Proof.
  intros H. unfold shr_fexp, shr.
  assert (H0 : (0 <= shr_m (shr_record_of_loc mm l))%Z)
    by (destruct l as [|[ | | ]]; exact H).
  destruct (fexp prec emax (Zdigits2 mm + e) - e)%Z; simpl; auto.
  now apply iter_pos_shr_1_nonneg.
Qed.

Lemma round_nearest_even_nonneg (mm : Z) (l : location) :
  (0 <= mm)%Z -> (0 <= round_nearest_even mm l)%Z.
Proof.
  intros H. destruct l as [|[ | | ]]; simpl; try lia.
  destruct (Z.even mm); lia.
Qed.

Lemma binary_round_aux_sign (sx : bool) (mm e : Z) (l : location) :
  (0 <= mm)%Z -> SFsign_is sx (binary_round_aux prec emax sx mm e l).
Proof.
  intros H. unfold binary_round_aux.
  pose proof (shr_fexp_nonneg mm e l H) as H1.
  destruct (shr_fexp prec emax mm e l) as [mrs1 e1]. simpl in H1.
  pose proof (shr_fexp_nonneg _ e1 loc_Exact
                (round_nearest_even_nonneg _ (loc_of_shr_record mrs1) H1)) as H2.
  destruct (shr_fexp prec emax
              (round_nearest_even (shr_m mrs1) (loc_of_shr_record mrs1))
              e1 loc_Exact) as [mrs2 e2].
  simpl in H2.
  destruct (shr_m mrs2) as [|q|q]; unfold SFsign_is.
  - reflexivity.
  - destruct (e2 <=? emax - prec)%Z; reflexivity.
  - lia.
Qed.

Lemma binary_round_sign (sx : bool) (mx : positive) (e : Z) :
  SFsign_is sx (binary_round prec emax sx mx e).
Proof.
  unfold binary_round.
  destruct (shl_align mx e (fexp prec emax (Z.pos (digits2_pos mx) + e)))
    as [mz ez].
  apply binary_round_aux_sign. lia.
Qed.

(** *** Strictly positive operands *)

Lemma ltb_zero_spec (a : float) : (0 <? a) = SFpositive (Prim2SF a).
Proof.
  rewrite ltb_spec. change (Prim2SF 0) with (S754_zero false).
  now destruct (Prim2SF a) as [[|]|[|]| |[|] ma ea].
Qed.

Lemma ltb_infinity_spec (a : float) :
  (0 <? a) = true -> (a <? infinity) = true ->
  exists ma ea, Prim2SF a = S754_finite false ma ea.
Proof.
  rewrite ltb_zero_spec, ltb_spec.
  change (Prim2SF infinity) with (S754_infinity false).
  destruct (Prim2SF a) as [[|]|[|]| |[|] ma ea]; try discriminate.
  intros _ _. now exists ma, ea.
Qed.

Lemma SFmul_positive (a b : spec_float) :
  SFpositive a = true -> SFpositive b = true -> SFsign_is false (SF64mul a b).
Proof.
  destruct a as [[|]|[|]| |[|] ma ea]; try discriminate;
    destruct b as [[|]|[|]| |[|] mb eb]; try discriminate; intros _ _;
    try reflexivity.
  apply binary_round_aux_sign. lia.
Qed.

Lemma SFdiv_core_nonneg (m1 : positive) (e1 : Z) (m2 : positive) (e2 : Z) :
  (0 <= fst (fst (SFdiv_core_binary prec emax (Z.pos m1) e1 (Z.pos m2) e2)))%Z.
Proof.
  unfold SFdiv_core_binary.
  set (s := (e1 - e2 - _)%Z).
  set (m' := match s with Z.pos _ => Z.shiftl (Z.pos m1) s | 0%Z => Z.pos m1 | Z.neg _ => 0%Z end).
  assert (H : (0 <= m')%Z).
  { subst m'. destruct s; try lia. apply Z.shiftl_nonneg. lia. }
  pose proof (Z.div_pos m' (Z.pos m2) H ltac:(lia)) as Hq.
  unfold Z.div in Hq. destruct (Z.div_eucl m' (Z.pos m2)) as [q rr]. exact Hq.
Qed.

Lemma SFdiv_positive (ma : positive) (ea : Z) (b : spec_float) :
  SFsign_is false b -> SFsign_is false (SF64div (S754_finite false ma ea) b).
Proof.
  destruct b as [sb|sb| |sb mb eb]; simpl; intros H; try contradiction;
    subst sb; try reflexivity.
  pose proof (SFdiv_core_nonneg ma ea mb eb) as Hq.
  destruct (SFdiv_core_binary prec emax (Z.pos ma) ea (Z.pos mb) eb)
    as [[mz ez] lz].
  apply binary_round_aux_sign. exact Hq.
Qed.

Lemma sign_false_leb (a : float) :
  SFsign_is false (Prim2SF a) ->
  (0 <=? a) = true /\ (a <? 0) = false /\ is_nan a = false /\
  (0 <? a) = negb (a =? 0).
Proof.
  rewrite leb_spec, !ltb_spec, FloatAxioms.eqb_spec, is_nan_spec.
  change (Prim2SF 0) with (S754_zero false).
  destruct (Prim2SF a) as [sa|sa| |sa ma ea]; simpl; intros H;
    try contradiction; subst sa; repeat split.
Qed.

(** A quotient of strictly positive numbers, the dividend finite, is never
    negative and never a NaN; it is strictly positive unless it is zero. *)
Lemma div_mul_positive (a b d : float) :
  (0 <? a) = true -> (a <? infinity) = true ->
  (0 <? b) = true -> (0 <? d) = true ->
  (0 <=? a / (b * d)) = true /\ (a / (b * d) <? 0) = false /\
  is_nan (a / (b * d)) = false /\
  (0 <? a / (b * d)) = negb (a / (b * d) =? 0).
Proof.
  intros Ha Hfin Hb Hd. apply sign_false_leb.
  destruct (ltb_infinity_spec a Ha Hfin) as (ma & ea & Ea).
  rewrite ltb_zero_spec in Hb, Hd.
  rewrite div_spec, mul_spec, Ea.
  apply SFdiv_positive, SFmul_positive; assumption.
Qed.

(** Subtracting a strictly positive number from one that is not strictly
    positive does not give a strictly positive number. *)
Lemma SFsub_not_positive (a b : spec_float) :
  SFpositive a = false -> SFpositive b = true ->
  SFpositive (SF64sub a b) = false.
Proof.
  destruct b as [[|]|[|]| |[|] mb eb]; try discriminate;
    destruct a as [[|]|[|]| |[|] ma ea]; try discriminate; intros _ _;
    try reflexivity.
  unfold SF64sub, SFsub.
  destruct (shl_align ma ea (Z.min ea eb)) as [pa xa].
  destruct (shl_align mb eb (Z.min ea eb)) as [pb xb].
  cbn [fst cond_Zopp Z.opp Z.sub Z.add Z.pos_sub binary_normalize].
  pose proof (binary_round_sign true (pa + pb) (Z.min ea eb)) as H.
  destruct (binary_round prec emax true (pa + pb) (Z.min ea eb))
    as [sr|sr| |sr mr er]; simpl in H; try subst sr; reflexivity.
Qed.

Lemma sub_not_positive (a b : float) :
  (0 <? a) = false -> (0 <? b) = true -> (0 <? a - b) = false.
Proof.
  rewrite !ltb_zero_spec, sub_spec. apply SFsub_not_positive.
Qed.

(** *** Infinities and NaNs propagate *)

Lemma is_finite_spec (a : float) :
  is_finite a = negb (SFnonfinite (Prim2SF a)).
Proof.
  unfold is_finite, is_infinity.
  rewrite is_nan_spec, FloatAxioms.eqb_spec, abs_spec.
  change (Prim2SF infinity) with (S754_infinity false).
  now destruct (Prim2SF a) as [sa|sa| |sa ma ea].
Qed.

Lemma SFdiv_zero_nonfinite (a : spec_float) (sz : bool) :
  SFnonfinite (SF64div a (S754_zero sz)) = true.
Proof. now destruct a. Qed.

Lemma SFmul_nonfinite (a b : spec_float) :
  SFnonfinite a = true -> SFnonfinite (SF64mul a b) = true.
Proof. destruct a, b; try discriminate; reflexivity. Qed.

Lemma SFadd_nonfinite (a b : spec_float) :
  SFnonfinite a = true \/ SFnonfinite b = true ->
  SFnonfinite (SF64add a b) = true.
Proof.
  destruct a as [sa|sa| |sa ma ea], b as [sb|sb| |sb mb eb];
    intros [H|H]; try discriminate; try reflexivity;
    destruct sa, sb; reflexivity.
Qed.

Lemma div_zero_not_finite (a : float) : is_finite (a / 0) = false.
Proof.
  rewrite is_finite_spec, div_spec.
  change (Prim2SF 0) with (S754_zero false).
  now rewrite SFdiv_zero_nonfinite.
Qed.

Lemma mul_not_finite_l (a b : float) :
  is_finite a = false -> is_finite (a * b) = false.
Proof.
  rewrite !is_finite_spec, mul_spec. intros H.
  rewrite SFmul_nonfinite; [reflexivity|].
  now destruct (SFnonfinite (Prim2SF a)).
Qed.

Lemma add_not_finite_l (a b : float) :
  is_finite a = false -> is_finite (a + b) = false.
Proof.
  rewrite !is_finite_spec, add_spec. intros H.
  rewrite SFadd_nonfinite; [reflexivity|left].
  now destruct (SFnonfinite (Prim2SF a)).
Qed.

Lemma add_not_finite_r (a b : float) :
  is_finite b = false -> is_finite (a + b) = false.
Proof.
  rewrite !is_finite_spec, add_spec. intros H.
  rewrite SFadd_nonfinite; [reflexivity|right].
  now destruct (SFnonfinite (Prim2SF b)).
Qed.

Lemma add_nan_r (a : float) : a + nan = nan.
Proof.
  apply Prim2SF_inj. rewrite add_spec.
  change (Prim2SF nan) with S754_nan.
  now destruct (Prim2SF a) as [sa|sa| |sa ma ea].
Qed.

Lemma add_nan_l (a : float) : nan + a = nan.
Proof.
  apply Prim2SF_inj. rewrite add_spec.
  change (Prim2SF nan) with S754_nan. reflexivity.
Qed.

Lemma mul_nan_l (a : float) : nan * a = nan.
Proof.
  apply Prim2SF_inj. rewrite mul_spec.
  change (Prim2SF nan) with S754_nan. reflexivity.
Qed.

Section Rounding.

#[local] Open Scope Z_scope.

(** [H : 0 < 2 ^ k], for an exponent [k] that [lia] shows non-negative. *)
Ltac pow2_pos H k :=
  assert (H : 0 < 2 ^ k) by (apply Z.pow_pos_nonneg; lia).

(** *** Digits *)

Lemma digits2_pos_size (p : positive) : digits2_pos p = Pos.size p.
Proof. induction p as [p IH|p IH|]; simpl; now rewrite ?IH. Qed.

Lemma digits2_pos_bounds (p : positive) :
  2 ^ (Z.pos (digits2_pos p) - 1) <= Z.pos p < 2 ^ Z.pos (digits2_pos p).
Proof.
  rewrite digits2_pos_size.
  pose proof (Pos.size_gt p) as Hgt. pose proof (Pos.size_le p) as Hle.
  apply Pos2Z.pos_lt_pos in Hgt. apply Pos2Z.pos_le_pos in Hle.
  rewrite Pos2Z.inj_pow in Hgt, Hle.
  replace (Z.pos (Pos.size p)) with (Z.succ (Z.pos (Pos.size p) - 1)) in Hle at 1 by lia.
  rewrite Z.pow_succ_r in Hle by lia.
  change (Z.pos p~0) with (2 * Z.pos p) in Hle. lia.
Qed.

(** A positive number below [2^k] has at most [k] digits. *)
Lemma digits2_pos_le (p : positive) (k : Z) :
  Z.pos p < 2 ^ k -> Z.pos (digits2_pos p) <= k.
Proof.
  intros H. destruct (digits2_pos_bounds p) as [Hlo _].
  destruct (Z.le_gt_cases (Z.pos (digits2_pos p)) k) as [|Hgt]; [assumption|].
  assert (2 ^ k <= 2 ^ (Z.pos (digits2_pos p) - 1)) by (apply Z.pow_le_mono_r; lia).
  lia.
Qed.

Lemma Zdigits2_le (q : Z) (k : Z) :
  0 <= q -> 0 <= k -> q < 2 ^ k -> Zdigits2 q <= k.
Proof.
  intros Hq Hk H. destruct q as [|p|p]; simpl; try lia.
  now apply digits2_pos_le.
Qed.

Lemma fexp_mono (a b : Z) : a <= b -> fexp prec emax a <= fexp prec emax b.
Proof. unfold fexp, SpecFloat.emin. lia. Qed.

(** *** Right shifts keep a floor and remember whether bits were lost *)

Lemma shr_inv_init (D : Z) :
  0 <= D -> shr_inv D 0 (shr_record_of_loc D loc_Exact).
Proof. intros H. unfold shr_inv. simpl. repeat split; lia. Qed.

Lemma shr_inv_step (D k : Z) (mrs : shr_record) :
  0 <= k -> shr_inv D k mrs -> shr_inv D (k + 1) (shr_1 mrs).
Proof.
  intros Hk (H0 & Hb & He & Hi). unfold shr_inv.
  rewrite Z.pow_add_r, Z.pow_1_r by lia.
  destruct mrs as [mm rr ss]. simpl in H0, Hb, He, Hi.
  pow2_pos P k.
  destruct mm as [|[p|p|]|p]; try lia;
    cbv beta iota zeta delta [shr_1 shr_m shr_r shr_s];
    (split; [lia|]); (split; [nia|]);
    (split; [try discriminate; intros E; specialize (He E); nia|]);
    intros E; try nia; specialize (Hi E); nia.
Qed.

Lemma shr_inv_iter (n : positive) (D k : Z) (mrs : shr_record) :
  0 <= k -> shr_inv D k mrs ->
  shr_inv D (k + Z.pos n) (SpecFloat.iter_pos shr_1 n mrs).
Proof.
  revert k mrs. induction n as [n IH|n IH|]; intros k mrs Hk H; simpl.
  - replace (k + Z.pos n~1) with (k + 1 + Z.pos n + Z.pos n) by lia.
    apply IH; [lia|]. apply IH; [lia|]. now apply shr_inv_step.
  - replace (k + Z.pos n~0) with (k + Z.pos n + Z.pos n) by lia.
    apply IH; [lia|]. now apply IH.
  - now apply shr_inv_step.
Qed.

(** Rounding to nearest does not go above an integer bound of the value. *)
Lemma round_nearest_even_le (D k K : Z) (mrs : shr_record) :
  0 <= k -> shr_inv D k mrs -> D <= K * 2 ^ k ->
  0 <= round_nearest_even (shr_m mrs) (loc_of_shr_record mrs) <= K.
Proof.
  intros Hk (H0 & Hb & He & Hi) HK.
  pow2_pos P k.
  destruct mrs as [mm [|] [|]]; simpl in *;
    try specialize (Hi eq_refl); try specialize (He eq_refl);
    try destruct (Z.even mm); nia.
Qed.

Lemma shr_fexp_spec (mm e : Z) :
  0 <= mm ->
  snd (shr_fexp prec emax mm e loc_Exact)
    = Z.max e (fexp prec emax (Zdigits2 mm + e)) /\
  shr_inv mm (snd (shr_fexp prec emax mm e loc_Exact) - e)
          (fst (shr_fexp prec emax mm e loc_Exact)).
Proof.
  intros H. unfold shr_fexp, shr.
  pose proof (shr_inv_init mm H) as I0.
  destruct (fexp prec emax (Zdigits2 mm + e) - e) as [|n|n] eqn:N;
    cbn [fst snd].
  - split; [lia|]. now replace (e - e) with 0 by lia.
  - split; [lia|]. replace (e + Z.pos n - e) with (0 + Z.pos n) by lia.
    now apply shr_inv_iter.
  - split; [lia|]. now replace (e - e) with 0 by lia.
Qed.

(** *** Rounding below a representable bound *)

Lemma bounded_spec (mx : positive) (ex : Z) :
  bounded prec emax mx ex = true ->
  fexp prec emax (Z.pos (digits2_pos mx) + ex) = ex /\ ex <= emax - prec.
Proof.
  unfold bounded, canonical_mantissa. intros H.
  apply andb_true_iff in H. destruct H as [H1 H2].
  apply Z.eqb_eq in H1. apply Z.leb_le in H2. auto.
Qed.

(** A value of at most [d] digits above exponent [e], with [d + e] at most
    the digits-plus-exponent of a canonical [(mx, ex)], is rounded at an
    exponent that is at most [ex]. *)
Lemma fexp_below (mx : positive) (ex q e K : Z) :
  fexp prec emax (Z.pos (digits2_pos mx) + ex) = ex ->
  e <= ex -> 0 <= q -> K <= Z.pos mx -> q <= K * 2 ^ (ex - e) ->
  fexp prec emax (Zdigits2 q + e) <= ex.
Proof.
  intros Hc He Hq HK Hle.
  apply Z.le_trans with (fexp prec emax (Z.pos (digits2_pos mx) + ex));
    [|lia].
  apply fexp_mono.
  destruct (digits2_pos_bounds mx) as [_ Hx].
  pow2_pos P (ex - e).
  assert (Zdigits2 q <= Z.pos (digits2_pos mx) + (ex - e)); [|lia].
  apply Zdigits2_le; try lia.
  rewrite Z.pow_add_r by lia. nia.
Qed.

Lemma binary_round_aux_below
  (sx : bool) (mm e : Z) (mx : positive) (ex K : Z) :
  bounded prec emax mx ex = true ->
  0 <= mm -> e <= ex -> K <= Z.pos mx -> mm <= K * 2 ^ (ex - e) ->
  SFbelow sx mx ex K (binary_round_aux prec emax sx mm e loc_Exact).
Proof.
  intros Hb Hm He HK Hle.
  destruct (bounded_spec mx ex Hb) as [Hc Hmax].
  unfold binary_round_aux.
  destruct (shr_fexp_spec mm e Hm) as [E1 I1].
  destruct (shr_fexp prec emax mm e loc_Exact) as [mrs1 e1].
  cbn [fst snd] in E1, I1.
  assert (He1 : e1 <= ex).
  { pose proof (fexp_below mx ex mm e K Hc He Hm HK Hle). lia. }
  set (q := round_nearest_even (shr_m mrs1) (loc_of_shr_record mrs1)).
  assert (Hq : 0 <= q <= K * 2 ^ (ex - e1)).
  { apply (round_nearest_even_le mm (e1 - e)); [lia|exact I1|].
    rewrite <- Z.mul_assoc, <- Z.pow_add_r by lia.
    now replace (ex - e1 + (e1 - e)) with (ex - e) by lia. }
  destruct (shr_fexp_spec q e1 (proj1 Hq)) as [E2 I2].
  destruct (shr_fexp prec emax q e1 loc_Exact) as [mrs2 e2].
  cbn [fst snd] in E2, I2.
  assert (He2 : e2 <= ex).
  { pose proof (fexp_below mx ex q e1 K Hc He1 (proj1 Hq) HK (proj2 Hq)). lia. }
  destruct I2 as (Q0 & Qb & _ & _).
  assert (Hq2 : shr_m mrs2 <= K * 2 ^ (ex - e2)).
  { pow2_pos P (e2 - e1).
    assert (E : K * 2 ^ (ex - e1) = K * 2 ^ (ex - e2) * 2 ^ (e2 - e1)).
    { rewrite <- Z.mul_assoc, <- Z.pow_add_r by lia.
      now replace (ex - e2 + (e2 - e1)) with (ex - e1) by lia. }
    nia. }
  destruct (shr_m mrs2) as [|mr|mr]; unfold SFbelow.
  - reflexivity.
  - replace (e2 <=? emax - prec) with true by (symmetry; apply Z.leb_le; lia).
    split; [reflexivity|].
    destruct (Z.eq_dec e2 ex) as [->|]; [right|left; lia].
    rewrite Z.sub_diag, Z.pow_0_r in Hq2. lia.
  - lia.
Qed.

Lemma iter_xO_spec (mx d : positive) :
  Z.pos (Pos.iter xO mx d) = Z.pos mx * 2 ^ Z.pos d.
Proof.
  induction d as [|d IH] using Pos.peano_ind.
  - simpl. lia.
  - rewrite Pos.iter_succ, Pos2Z.inj_succ, Z.pow_succ_r by lia.
    rewrite Pos2Z.inj_xO, IH. lia.
Qed.

Lemma shl_align_spec (mx : positive) (ex ex' : Z) :
  snd (shl_align mx ex ex') = Z.min ex ex' /\
  Z.pos (fst (shl_align mx ex ex'))
    = Z.pos mx * 2 ^ (ex - snd (shl_align mx ex ex')).
Proof.
  unfold shl_align. destruct (ex' - ex) as [|d|d] eqn:N; cbn [fst snd].
  - split; [lia|]. rewrite Z.sub_diag. simpl. lia.
  - split; [lia|]. rewrite Z.sub_diag. simpl. lia.
  - split; [lia|]. replace (ex - ex') with (Z.pos d) by lia.
    apply iter_xO_spec.
Qed.

Lemma binary_round_below
  (sx : bool) (m0 : positive) (e0 : Z) (mx : positive) (ex K : Z) :
  bounded prec emax mx ex = true ->
  e0 <= ex -> K <= Z.pos mx -> Z.pos m0 <= K * 2 ^ (ex - e0) ->
  SFbelow sx mx ex K (binary_round prec emax sx m0 e0).
Proof.
  intros Hb He HK Hle. unfold binary_round.
  destruct (shl_align_spec m0 e0 (fexp prec emax (Z.pos (digits2_pos m0) + e0)))
    as [Ez Em].
  destruct (shl_align m0 e0 (fexp prec emax (Z.pos (digits2_pos m0) + e0)))
    as [mz ez].
  cbn [fst snd] in Ez, Em.
  apply binary_round_aux_below; try assumption; try lia.
  rewrite Em.
  pow2_pos P (e0 - ez).
  assert (E : K * 2 ^ (ex - ez) = K * 2 ^ (ex - e0) * 2 ^ (e0 - ez)).
  { rewrite <- Z.mul_assoc, <- Z.pow_add_r by lia.
    now replace (ex - e0 + (e0 - ez)) with (ex - ez) by lia. }
  nia.
Qed.

(** *** Subtracting a positive number from a positive number *)

Lemma SFbelow_compare (mx : positive) (ex K : Z) (a : spec_float) :
  SFbelow false mx ex K a -> K <= Z.pos mx ->
  SFleb a (S754_finite false mx ex) = true /\
  (K < Z.pos mx -> SFltb a (S754_finite false mx ex) = true).
Proof.
  unfold SFleb, SFltb.
  destruct a as [sa|sa| |sa mr er]; simpl; intros H HK; try contradiction.
  - subst sa. auto.
  - destruct H as [-> [Hlt|[-> Hle]]].
    + apply Z.compare_lt_iff in Hlt. rewrite Hlt. auto.
    + rewrite Z.compare_refl.
      change (Pos.compare_cont Eq mr mx) with (Pos.compare mr mx).
      destruct (Pos.compare_spec mr mx) as [E|L|G]; try (split; [reflexivity|]).
      * intros. lia.
      * reflexivity.
      * lia.
Qed.

Lemma SFsign_true_compare (mx : positive) (ex : Z) (a : spec_float) :
  SFsign_is true a ->
  SFleb a (S754_finite false mx ex) = true /\
  SFltb a (S754_finite false mx ex) = true /\
  SFpositive a = false.
Proof.
  destruct a as [sa|sa| |sa mr er]; simpl; intros H; try contradiction;
    subst sa; repeat split.
Qed.

(** The difference [x - y] of two strictly positive finite numbers is at
    most [x]; it is strictly below [x] when [y] is at least one unit in the
    last place of [x]; and when it is strictly positive its exponent is at
    most that of [x]. *)
Lemma SFsub_positive (mx : positive) (ex : Z) (my : positive) (ey : Z) :
  bounded prec emax mx ex = true ->
  let a := SF64sub (S754_finite false mx ex) (S754_finite false my ey) in
  SFleb a (S754_finite false mx ex) = true /\
  (ex < Z.pos (digits2_pos my) + ey -> SFltb a (S754_finite false mx ex) = true) /\
  match a with
  | S754_finite false _ er => er <= ex
  | _ => SFpositive a = false
  end.
Proof.
  intros Hb. unfold SF64sub, SFsub.
  destruct (shl_align_spec mx ex (Z.min ex ey)) as [Ezx Emx].
  destruct (shl_align_spec my ey (Z.min ex ey)) as [Ezy Emy].
  destruct (shl_align mx ex (Z.min ex ey)) as [px zx].
  destruct (shl_align my ey (Z.min ex ey)) as [py zy].
  cbn [fst snd cond_Zopp] in *.
  rewrite Ezx in Emx. rewrite Ezy in Emy. clear Ezx Ezy zx zy.
  replace (Z.min ex (Z.min ex ey)) with (Z.min ex ey) in Emx by lia.
  replace (Z.min ey (Z.min ex ey)) with (Z.min ex ey) in Emy by lia.
  set (ez := Z.min ex ey) in *.
  pow2_pos Px (ex - ez).
  destruct (Z.pos px - Z.pos py) as [|p|p] eqn:D; cbn [binary_normalize].
  - repeat split.
  - assert (B : forall K, K <= Z.pos mx -> Z.pos p <= K * 2 ^ (ex - ez) ->
                 SFbelow false mx ex K (binary_round prec emax false p ez))
      by (intros K HK HP; apply binary_round_below; auto; lia).
    split; [|split].
    + apply (SFbelow_compare mx ex (Z.pos mx)); [|lia]. apply B; nia.
    + intros Hu.
      apply (SFbelow_compare mx ex (Z.pos mx - 1)); [|lia|lia].
      apply B; [lia|].
      destruct (digits2_pos_bounds my) as [Hlo _].
      assert (2 ^ (ex - ez) <= Z.pos py).
      { rewrite Emy.
        apply Z.le_trans
          with (2 ^ (Z.pos (digits2_pos my) - 1) * 2 ^ (ey - ez)).
        - rewrite <- Z.pow_add_r by lia. apply Z.pow_le_mono_r; lia.
        - apply Z.mul_le_mono_nonneg_r; [|lia].
          apply Z.pow_nonneg; lia. }
      nia.
    + pose proof (B (Z.pos mx) ltac:(lia) ltac:(nia)) as H.
      destruct (binary_round prec emax false p ez) as [sr|sr| |sr mr er];
        simpl in H; try contradiction.
      * now subst sr.
      * destruct H as [-> H]. lia.
  - pose proof (binary_round_sign true p ez) as H.
    destruct (SFsign_true_compare mx ex _ H) as (H1 & H2 & H3).
    split; [exact H1|]. split; [intros _; exact H2|].
    destruct (binary_round prec emax true p ez) as [sr|sr| |sr mr er];
      simpl in H; try contradiction; now subst sr.
Qed.

(** *** Integers below [2^53] are added exactly *)

(** The number of digits is fixed by the power-of-two bracket. *)
Lemma digits2_pos_unique (p : positive) (d : Z) :
  2 ^ (d - 1) <= Z.pos p < 2 ^ d -> Z.pos (digits2_pos p) = d.
Proof.
  intros [Hlo Hhi]. destruct (digits2_pos_bounds p) as [Plo Phi].
  assert (Z.pos (digits2_pos p) <= d) by now apply digits2_pos_le.
  destruct (Z.le_gt_cases d (Z.pos (digits2_pos p))) as [|Hgt]; [lia|].
  assert (2 ^ Z.pos (digits2_pos p) <= 2 ^ (d - 1))
    by (apply Z.pow_le_mono_r; lia).
  lia.
Qed.

Lemma digits2_pos_shift (p q : positive) (k : Z) :
  0 <= k -> Z.pos q = Z.pos p * 2 ^ k ->
  Z.pos (digits2_pos q) = Z.pos (digits2_pos p) + k.
Proof.
  intros Hk E. apply digits2_pos_unique. rewrite E.
  destruct (digits2_pos_bounds p) as [Plo Phi].
  pow2_pos P k.
  replace (Z.pos (digits2_pos p) + k - 1)
    with (Z.pos (digits2_pos p) - 1 + k) by lia.
  rewrite !Z.pow_add_r by lia. nia.
Qed.

(** A right shift that loses no bit is exact. *)
Lemma shr_inv_exact (D k q : Z) (mrs : shr_record) :
  0 <= k -> shr_inv D k mrs -> D = q * 2 ^ k ->
  shr_m mrs = q /\ loc_of_shr_record mrs = loc_Exact.
Proof.
  intros Hk (H0 & Hb & He & Hi) E.
  pow2_pos P k.
  assert (Hq : shr_m mrs = q).
  { rewrite E in Hb. destruct Hb as [Hb1 Hb2].
    apply Z.mul_le_mono_pos_r in Hb1; [|exact P].
    apply Z.mul_lt_mono_pos_r in Hb2; [|exact P]. lia. }
  split; [exact Hq|].
  destruct mrs as [mm [|] [|]];
    cbn [shr_m shr_r shr_s orb loc_of_shr_record] in *;
    try reflexivity; specialize (Hi eq_refl); exfalso; subst q; lia.
Qed.

(** Rounding a mantissa that is a multiple of the unit of its rounding
    exponent [e1], and has at most [prec] digits above it, is the identity
    on the value: the result is [(q, e1)]. *)
Lemma binary_round_aux_exact (sx : bool) (mm : positive) (e : Z) (q : positive) :
  let e1 := fexp prec emax (Z.pos (digits2_pos mm) + e) in
  e <= e1 -> e1 <= emax - prec ->
  Z.pos mm = Z.pos q * 2 ^ (e1 - e) ->
  binary_round_aux prec emax sx (Z.pos mm) e loc_Exact = S754_finite sx q e1.
Proof.
  intros e1 He Hmax E. unfold binary_round_aux.
  destruct (shr_fexp_spec (Z.pos mm) e ltac:(lia)) as [E1 I1].
  destruct (shr_fexp prec emax (Z.pos mm) e loc_Exact) as [mrs1 e1'].
  cbn [fst snd Zdigits2] in E1, I1. fold e1 in E1.
  assert (X : e1' = e1) by lia. clear E1. subst e1'.
  destruct (shr_inv_exact (Z.pos mm) (e1 - e) (Z.pos q) mrs1
              ltac:(lia) I1 E) as [Hm Hl].
  rewrite Hm, Hl. cbn [round_nearest_even].
  assert (Dq : Z.pos (digits2_pos q) + e1 = Z.pos (digits2_pos mm) + e).
  { rewrite (digits2_pos_shift q mm (e1 - e)); [lia|lia|exact E]. }
  unfold shr_fexp. cbn [Zdigits2]. rewrite Dq. fold e1.
  rewrite Z.sub_diag. cbn [shr shr_record_of_loc shr_m].
  now replace (e1 <=? emax - prec) with true by (symmetry; apply Z.leb_le; lia).
Qed.

Lemma fexp_small (d : Z) : 1 <= d <= 53 -> fexp prec emax d = d - 53.
Proof. unfold fexp, SpecFloat.emin, prec, emax. lia. Qed.

(** A mantissa and a non-positive exponent that denote an integer below
    [2^53] round to the 53-bit form of that integer. *)
Lemma binary_round_int (p : positive) (e : Z) (N : positive) :
  Z.pos N < 2 ^ 53 -> e <= 0 -> Z.pos p = Z.pos N * 2 ^ (- e) ->
  exists q,
    Z.pos q = Z.pos N * 2 ^ (53 - Z.pos (digits2_pos N)) /\
    binary_round prec emax false p e
      = S754_finite false q (Z.pos (digits2_pos N) - 53).
Proof.
  intros HN He E.
  set (d := Z.pos (digits2_pos N)).
  assert (Hd : 1 <= d <= 53)
    by (split; [unfold d; lia | now apply digits2_pos_le]).
  assert (Dp : Z.pos (digits2_pos p) + e = d).
  { rewrite (digits2_pos_shift N p (- e)); [fold d; lia | lia | exact E]. }
  assert (Pq : 0 < Z.pos N * 2 ^ (53 - d))
    by (apply Z.mul_pos_pos; [lia | apply Z.pow_pos_nonneg; lia]).
  exists (Z.to_pos (Z.pos N * 2 ^ (53 - d))).
  rewrite Z2Pos.id by exact Pq. split; [reflexivity|].
  unfold binary_round. rewrite Dp, (fexp_small d Hd).
  destruct (shl_align_spec p e (d - 53)) as [Ez Em].
  destruct (shl_align p e (d - 53)) as [mz ez]. cbn [fst snd] in Ez, Em.
  assert (Dz : Z.pos (digits2_pos mz) + ez = d).
  { rewrite (digits2_pos_shift p mz (e - ez)); [lia | lia | exact Em]. }
  pose proof (binary_round_aux_exact false mz ez
                (Z.to_pos (Z.pos N * 2 ^ (53 - d)))) as R.
  cbv zeta in R. rewrite Dz, (fexp_small d Hd) in R.
  apply R; [lia | unfold prec, emax; lia |].
  rewrite Z2Pos.id by exact Pq. rewrite Em, E.
  rewrite <- !Z.mul_assoc, <- !Z.pow_add_r by lia.
  f_equal. f_equal. lia.
Qed.

Lemma Z2SF_pos (N : positive) :
  Z.pos N < 2 ^ 53 ->
  exists q,
    Z.pos q = Z.pos N * 2 ^ (53 - Z.pos (digits2_pos N)) /\
    Z2SF (Z.pos N) = S754_finite false q (Z.pos (digits2_pos N) - 53).
Proof.
  intros HN. apply (binary_round_int N 0 N HN); [lia|].
  simpl. lia.
Qed.

Lemma Z2SF_add (A B : positive) :
  Z.pos A + Z.pos B < 2 ^ 53 ->
  SF64add (Z2SF (Z.pos A)) (Z2SF (Z.pos B)) = Z2SF (Z.pos A + Z.pos B).
Proof.
  intros H.
  destruct (Z2SF_pos A ltac:(lia)) as (qa & Ea & ->).
  destruct (Z2SF_pos B ltac:(lia)) as (qb & Eb & ->).
  destruct (Z2SF_pos (A + B) ltac:(lia)) as (qs & Es & Rs).
  rewrite <- Pos2Z.inj_add, Rs.
  set (da := Z.pos (digits2_pos A)) in *.
  set (db := Z.pos (digits2_pos B)) in *.
  assert (Ha : 1 <= da <= 53)
    by (split; [unfold da; lia | apply digits2_pos_le; lia]).
  assert (Hb : 1 <= db <= 53)
    by (split; [unfold db; lia | apply digits2_pos_le; lia]).
  unfold SF64add, SFadd.
  destruct (shl_align_spec qa (da - 53) (Z.min (da - 53) (db - 53))) as [Za Ma].
  destruct (shl_align_spec qb (db - 53) (Z.min (da - 53) (db - 53))) as [Zb Mb].
  destruct (shl_align qa (da - 53) (Z.min (da - 53) (db - 53))) as [pa za].
  destruct (shl_align qb (db - 53) (Z.min (da - 53) (db - 53))) as [pb zb].
  cbn [fst snd cond_Zopp] in *.
  rewrite Za in Ma. rewrite Zb in Mb. clear Za Zb za zb.
  set (ez := Z.min (da - 53) (db - 53)) in *.
  replace (Z.min (da - 53) ez) with ez in Ma by lia.
  replace (Z.min (db - 53) ez) with ez in Mb by lia.
  change (Z.pos pa + Z.pos pb) with (Z.pos (pa + pb)).
  cbn [binary_normalize].
  destruct (binary_round_int (pa + pb) ez (A + B) ltac:(lia) ltac:(lia))
    as (q & Eq & ->).
  - rewrite !Pos2Z.inj_add, Ma, Mb, Ea, Eb.
    rewrite <- !Z.mul_assoc, <- !Z.pow_add_r by lia.
    replace (53 - da + (da - 53 - ez)) with (- ez) by lia.
    replace (53 - db + (db - 53 - ez)) with (- ez) by lia. lia.
  - f_equal. apply Pos2Z.inj. now rewrite Eq, Es.
Qed.

Lemma Z2SF_add_nonneg (A B : Z) :
  0 <= A -> 0 < B -> A + B < 2 ^ 53 ->
  SF64add (Z2SF A) (Z2SF B) = Z2SF (A + B).
Proof.
  intros HA HB H. destruct B as [|B|B]; try lia.
  destruct A as [|A|A]; try lia.
  - destruct (Z2SF_pos B ltac:(lia)) as (qb & _ & E).
    rewrite Z.add_0_l, E. reflexivity.
  - now apply Z2SF_add.
Qed.

Lemma Z2SF_inj (A B : Z) :
  0 <= A < 2 ^ 53 -> 0 <= B < 2 ^ 53 -> Z2SF A = Z2SF B -> A = B.
Proof.
  intros HA HB E.
  destruct A as [|A|A], B as [|B|B]; try lia.
  - destruct (Z2SF_pos B ltac:(lia)) as (qb & _ & Eb).
    rewrite Eb in E. discriminate.
  - destruct (Z2SF_pos A ltac:(lia)) as (qa & _ & Ea).
    rewrite Ea in E. discriminate.
  - destruct (Z2SF_pos A ltac:(lia)) as (qa & Qa & Ea).
    destruct (Z2SF_pos B ltac:(lia)) as (qb & Qb & Eb).
    rewrite Ea, Eb in E.
    pose proof (f_equal (fun a => match a with
                                  | S754_finite _ _ e => e
                                  | _ => 0
                                  end) E) as Ed.
    pose proof (f_equal (fun a => match a with
                                  | S754_finite _ mq _ => Z.pos mq
                                  | _ => 0
                                  end) E) as Eq.
    cbv beta iota in Ed, Eq.
    assert (D : Z.pos (digits2_pos A) = Z.pos (digits2_pos B)) by lia.
    rewrite D in Qa.
    assert (P : 0 < 2 ^ (53 - Z.pos (digits2_pos B))).
    { apply Z.pow_pos_nonneg; [lia|].
      assert (Z.pos (digits2_pos B) <= 53) by (apply digits2_pos_le; lia).
      lia. }
    apply (Z.mul_reg_r _ _ (2 ^ (53 - Z.pos (digits2_pos B)))); lia.
Qed.

(** The product of two integers is exact while it stays below [2^53]. *)
Lemma Z2SF_mul (A B : positive) :
  Z.pos A * Z.pos B < 2 ^ 53 ->
  SF64mul (Z2SF (Z.pos A)) (Z2SF (Z.pos B)) = Z2SF (Z.pos A * Z.pos B).
Proof.
  intros H.
  assert (HA : Z.pos A < 2 ^ 53) by nia.
  assert (HB : Z.pos B < 2 ^ 53) by nia.
  destruct (Z2SF_pos A HA) as (qa & Ea & ->).
  destruct (Z2SF_pos B HB) as (qb & Eb & ->).
  change (Z.pos A * Z.pos B) with (Z.pos (A * B)) in *.
  destruct (Z2SF_pos (A * B) H) as (qs & Es & ->).
  set (da := Z.pos (digits2_pos A)) in *.
  set (db := Z.pos (digits2_pos B)) in *.
  set (ds := Z.pos (digits2_pos (A * B))) in *.
  assert (Ha : 1 <= da <= 53)
    by (split; [unfold da; lia | now apply digits2_pos_le]).
  assert (Hb : 1 <= db <= 53)
    by (split; [unfold db; lia | now apply digits2_pos_le]).
  assert (Hs : 1 <= ds <= 53)
    by (split; [unfold ds; lia | now apply digits2_pos_le]).
  assert (Has : da <= ds).
  { apply digits2_pos_le. fold ds.
    destruct (digits2_pos_bounds (A * B)) as [_ Hhi]. fold ds in Hhi.
    rewrite Pos2Z.inj_mul in Hhi. nia. }
  unfold SF64mul, SFmul. cbn [xorb].
  assert (Em : Z.pos (qa * qb)
               = Z.pos (A * B) * 2 ^ (106 - da - db)).
  { rewrite !Pos2Z.inj_mul, Ea, Eb.
    replace (106 - da - db) with ((53 - da) + (53 - db)) by lia.
    rewrite Z.pow_add_r by lia. ring. }
  assert (Dm : Z.pos (digits2_pos (qa * qb)) + (da - 53 + (db - 53)) = ds).
  { rewrite (digits2_pos_shift (A * B) (qa * qb) (106 - da - db));
      [fold ds; lia | lia | exact Em]. }
  pose proof (binary_round_aux_exact false (qa * qb)
                (da - 53 + (db - 53)) qs) as R.
  cbv zeta in R. rewrite Dm, (fexp_small ds Hs) in R.
  apply R; [lia | unfold prec, emax; lia |].
  rewrite Em, Es, <- Z.mul_assoc, <- Z.pow_add_r by lia.
  f_equal. f_equal. lia.
Qed.

Lemma Z2SF_mul_nonneg (A B : Z) :
  0 <= A -> 0 < B < 2 ^ 53 -> A * B < 2 ^ 53 ->
  SF64mul (Z2SF A) (Z2SF B) = Z2SF (A * B).
Proof.
  intros HA HB H. destruct B as [|B|B]; try lia.
  destruct A as [|A|A]; try lia.
  - destruct (Z2SF_pos B ltac:(lia)) as (qb & _ & E).
    rewrite Z.mul_0_l, E. reflexivity.
  - now apply Z2SF_mul.
Qed.

End Rounding.

(** *** Repeated subtraction of a positive number *)

Lemma SFexp_le_not_positive (E : Z) (a : spec_float) :
  SFpositive a = false -> SFexp_le E a.
Proof.
  destruct a as [sa|[|]| |[|] ma ea]; simpl; intros H;
    try discriminate; reflexivity.
Qed.

Lemma SFsub_exp_le (E : Z) (a : spec_float) (my : positive) (ey : Z) :
  valid_binary a = true -> SFexp_le E a ->
  SFexp_le E (SF64sub a (S754_finite false my ey)).
Proof.
  intros Hv Ha.
  destruct (SFpositive a) eqn:P.
  - destruct a as [sa|[|]| |[|] ma ea]; try discriminate.
    destruct (SFsub_positive ma ea my ey Hv) as (_ & _ & H).
    unfold SFexp_le in Ha.
    destruct (SF64sub (S754_finite false ma ea) (S754_finite false my ey))
      as [sr|sr| |[|] mr er]; unfold SFexp_le; try assumption.
    lia.
  - apply SFexp_le_not_positive. now apply SFsub_not_positive.
Qed.

Lemma SFsub_lt (E : Z) (a : spec_float) (my : positive) (ey : Z) :
  valid_binary a = true -> SFexp_le E a -> SFpositive a = true ->
  (E < Z.pos (digits2_pos my) + ey)%Z ->
  SFltb (SF64sub a (S754_finite false my ey)) a = true.
Proof.
  intros Hv Ha P HE.
  destruct a as [sa|[|]| |[|] ma ea]; try discriminate.
  unfold SFexp_le in Ha.
  destruct (SFsub_positive ma ea my ey Hv) as (_ & H & _).
  apply H. lia.
Qed.

(** Subtracting a strictly positive number from a strictly positive finite
    one never gives more. *)
Lemma sub_le_positive (a d : float) :
  (0 <? a) = true -> (a <? infinity) = true -> (0 <? d) = true ->
  (a - d <=? a) = true.
Proof.
  intros Ha Hfin Hd.
  destruct (ltb_infinity_spec a Ha Hfin) as (ma & ea & Ea).
  pose proof (Prim2SF_valid a) as Hv.
  rewrite ltb_zero_spec in Hd. rewrite leb_spec, sub_spec, Ea in *.
  destruct (Prim2SF d) as [sd|[|]| |[|] md ed]; try discriminate.
  - reflexivity.
  - now destruct (SFsub_positive ma ea md ed Hv) as (H & _ & _).
Qed.

End F64.

(** * Vector primitives *)

(** C3.  Dividing a vector by a scalar throws the division-by-zero error
    exactly when the scalar compares equal to zero, whatever the vector,
    and otherwise returns the componentwise quotient; in particular the two
    zeros of the format always throw, so a zero divisor never yields a
    vector of infinities or NaNs. *)
Theorem vdiv_throws_iff_zero (v : Vec2) (k : float) :
  (vdiv v k = Throw division_by_zero <-> (k =? 0) = true) /\
  ((k =? 0) = true <-> k = 0 \/ k = neg_zero) /\
  (vdiv v k = Ok (vec2 (at0 v / k) (at1 v / k)) <-> (k =? 0) = false) /\
  vdiv v 0 = Throw division_by_zero /\
  vdiv v neg_zero = Throw division_by_zero.
Proof.
  unfold vdiv. repeat split; try reflexivity.
  - destruct (k =? 0); [reflexivity | discriminate].
  - now intros ->.
  - apply F64.eqb_zero_iff.
  - apply F64.eqb_zero_iff.
  - destruct (k =? 0); [discriminate | reflexivity].
  - now intros ->.
Qed.

(** C8.  The two scalar multiplications are total functions that agree:
    [k * v] equals [v * k], and both are the componentwise product
    [(k * v[0], k * v[1])]. *)
Theorem scalar_mul_commutes (k : float) (v : Vec2) :
  smul k v = vmul v k /\
  smul k v = vec2 (k * at0 v) (k * at1 v) /\
  vmul v k = vec2 (k * at0 v) (k * at1 v).
Proof.
  unfold smul, vmul. repeat split.
  - now rewrite (F64.mul_comm k (at0 v)), (F64.mul_comm k (at1 v)).
  - now rewrite (F64.mul_comm (at0 v) k), (F64.mul_comm (at1 v) k).
Qed.

(** * The propagation loop *)

Section LoopFacts.

Variable pow : float -> float -> float.
Variable c : Config.

(** The body throws exactly when the speed compares equal to zero:
    the only fallible operation of an iteration is [v / norm(v)]. *)
Lemma body_throws_iff (s : State) (e : exn) :
  body pow c s = Throw e <-> (norm (v s) =? 0) = true /\ e = division_by_zero.
Proof.
  unfold body, accel, a_thrust, vdiv.
  destruct (norm (v s) =? 0); simpl; split.
  - intros H. injection H as <-. auto.
  - intros [_ ->]. reflexivity.
  - discriminate.
  - intros [H _]. discriminate.
Qed.

Lemma body_ok_iff (s : State) :
  (exists s', body pow c s = Ok s') <-> (norm (v s) =? 0) = false.
Proof.
  unfold body, accel, a_thrust, vdiv.
  destruct (norm (v s) =? 0); simpl; split; try discriminate; eauto.
  intros [s' H]. discriminate.
Qed.

(** One more iteration at the end of [n] iterations. *)
Lemma iterations_snoc (n : nat) (s s'' : State) :
  iterations pow c (S n) s = Some s'' <->
  exists s', iterations pow c n s = Some s' /\ guard c s' = true /\ body pow c s' = Ok s''.
Proof.
  revert s. induction n as [|n IH]; intros s.
  - simpl. split.
    + destruct (guard c s) eqn:G; [|discriminate].
      destruct (body pow c s) as [s1|e] eqn:B; [|discriminate].
      intros H. injection H as <-. exists s. auto.
    + intros (s' & H & G & B). injection H as <-. now rewrite G, B.
  - change (iterations pow c (S (S n)) s)
      with (if guard c s
            then match body pow c s with
                 | Ok s1 => iterations pow c (S n) s1
                 | Throw _ => None
                 end
            else None).
    split.
    + destruct (guard c s) eqn:G; [|discriminate].
      destruct (body pow c s) as [s1|e] eqn:B; [|discriminate].
      intros H. apply IH in H. destruct H as (s' & H & G' & B').
      exists s'. simpl. rewrite G, B. auto.
    + intros (s' & H & G' & B'). simpl in H.
      destruct (guard c s) eqn:G; [|discriminate].
      destruct (body pow c s) as [s1|e] eqn:B; [|discriminate].
      apply IH. eauto.
Qed.

(** Every earlier iteration count is reached too, with the condition true. *)
Lemma iterations_prefix (n : nat) (s s' : State) :
  iterations pow c n s = Some s' ->
  forall k, k < n ->
  exists sk, iterations pow c k s = Some sk /\ guard c sk = true.
Proof.
  revert s'. induction n as [|n IH]; intros s' H k Hk; [lia|].
  apply iterations_snoc in H. destruct H as (s1 & H & G & B).
  destruct (Nat.eq_dec k n) as [->|Hne].
  - eauto.
  - apply (IH s1 H k). lia.
Qed.

(** A normal exit of the loop is a run of completed iterations that ends
    in a state where the condition is false. *)
Lemma loop_exit_inv (fuel : nat) (s s' : State) :
  loop pow c fuel s = Some (Ok s') ->
  exists n, n <= fuel /\ iterations pow c n s = Some s' /\ guard c s' = false.
Proof.
  revert s. induction fuel as [|fuel IH]; intros s; simpl.
  - destruct (guard c s) eqn:G; [discriminate|].
    intros H. injection H as <-. exists O. auto.
  - destruct (guard c s) eqn:G.
    + destruct (body pow c s) as [s1|e] eqn:B; [|discriminate].
      intros H. apply IH in H. destruct H as (n & Hn & H & G').
      exists (S n). simpl. rewrite G, B. split; [lia | auto].
    + intros H. injection H as <-. exists O. split; [lia | auto].
Qed.

(** Conversely, enough fuel reaches that exit. *)
Lemma loop_exit_intro (n : nat) (s s' : State) :
  iterations pow c n s = Some s' -> guard c s' = false ->
  forall fuel, n <= fuel -> loop pow c fuel s = Some (Ok s').
Proof.
  revert s. induction n as [|n IH]; intros s H G' fuel Hf.
  - injection H as <-. destruct fuel; simpl; now rewrite G'.
  - simpl in H.
    destruct (guard c s) eqn:G; [|discriminate].
    destruct (body pow c s) as [s1|e] eqn:B; [|discriminate].
    destruct fuel as [|fuel]; [lia|]. simpl. rewrite G, B.
    apply IH; auto. lia.
Qed.

End LoopFacts.

(** * Initial state *)

(** C4.  The state before the loop is the circular orbit at the initial
    radius: position [(r_earth, 0)], velocity [(0, sqrt(mu / r_earth))],
    mass [m0], elapsed time [0]; the sample vectors hold the starting
    position and nothing else.  For the constants of the source the radius
    of that position is the initial radius, the velocity is perpendicular to
    it and its magnitude is [sqrt(mu / r_earth)]. *)
Theorem init_circular_orbit (c : Config) :
  r (init c) = vec2 (r_earth c) 0 /\
  v (init c) = vec2 0 (sqrt (mu c / r_earth c)) /\
  m (init c) = m0 c /\
  t (init c) = 0 /\
  combine (x (init c)) (y (init c)) = [(r_earth c, 0)] /\
  (List.length (x (init c)) = 1%nat /\ List.length (y (init c)) = 1%nat) /\
  (norm (r (init shipped)) = r_earth shipped /\
   at0 (r (init shipped)) * at0 (v (init shipped)) +
   at1 (r (init shipped)) * at1 (v (init shipped)) = 0 /\
   norm (v (init shipped)) = sqrt (mu shipped / r_earth shipped)).
Proof.
  repeat split; vm_compute; reflexivity.
Qed.

(** * One step *)

(** C1.  An iteration that completes updates the velocity first, from the
    acceleration [a] computed at the old state ([v' = v + a*dt]), and then
    the position with that new velocity ([r' = r + v'*dt]): the step is the
    semi-implicit Euler step.  It is the explicit Euler step only where the
    two position updates happen to round to the same vector. *)
Theorem body_semi_implicit_euler
  (pow : float -> float -> float) (c : Config) (s s' : State)
  (H : body pow c s = Ok s') :
  exists a,
    accel pow c s = Ok a /\
    v s' = vadd (v s) (vmul a (dt c)) /\
    r s' = vadd (r s) (vmul (v s') (dt c)) /\
    (r s', v s') = semi_implicit_euler a (dt c) (r s, v s) /\
    ((r s', v s') = explicit_euler a (dt c) (r s, v s) <->
     vadd (r s) (vmul (v s') (dt c)) = vadd (r s) (vmul (v s) (dt c))).
Proof.
  unfold body in H.
  destruct (accel pow c s) as [a|e]; simpl in H; [|discriminate].
  injection H as <-. exists a. simpl.
  repeat split; try reflexivity.
  - intros E. exact (f_equal fst E).
  - unfold explicit_euler, fst, snd. intros ->. reflexivity.
Qed.

(** At the first step of the source's configuration the semi-implicit step
    is taken and it is not the explicit one. *)
Lemma body_semi_implicit_euler_shipped :
  exists s' a,
    body pow_cube shipped (init shipped) = Ok s' /\
    accel pow_cube shipped (init shipped) = Ok a /\
    (r s', v s') =
      semi_implicit_euler a (dt shipped) (r (init shipped), v (init shipped)) /\
    (r s', v s') <>
      explicit_euler a (dt shipped) (r (init shipped), v (init shipped)).
Proof.
  destruct (body pow_cube shipped (init shipped)) as [s'|e] eqn:B;
    [|vm_compute in B; discriminate].
  destruct (body_semi_implicit_euler pow_cube shipped (init shipped) s' B)
    as (a & Ha & Hv & Hr & Hs & He).
  exists s', a. repeat split; try assumption.
  intros E. apply He in E. rewrite Hv in E.
  vm_compute in Ha. injection Ha as <-.
  vm_compute in E. discriminate.
Defined.

(** * Termination of the loop *)

(** C2, as the spec states it, fails: the initial mass [0] makes the thrust
    acceleration [T / m] infinite, its product with the zero x-component of
    the velocity direction is a NaN, and so is the radius after one step.
    The condition [norm(r) < r_mars] is then false, the loop ends normally,
    and [norm(r) >= r_mars] is false too: the program prints "No". *)
Lemma reached_false_at_normal_exit :
  exists s',
    loop pow_cube massless 1 (init massless) = Some (Ok s') /\
    (r_mars massless <=? norm (r s')) = false /\
    reached_mars (summary massless s') = false.
Proof.
  eexists. split; [vm_compute; reflexivity|].
  split; vm_compute; reflexivity.
Qed.

(** The same holds whatever [std::pow] returns: the NaN comes from the
    thrust term. *)
Lemma reached_false_for_every_pow (pow : float -> float -> float) :
  exists s',
    loop pow massless 1 (init massless) = Some (Ok s') /\
    norm (r s') = nan /\
    reached_mars (summary massless s') = false.
Proof.
  assert (B : exists s', body pow massless (init massless) = Ok s' /\
                         at0 (r s') = nan).
  { unfold body, accel, a_thrust, vdiv.
    change (norm (v (init massless)) =? 0) with false. cbn [bind].
    eexists. split; [reflexivity|]. cbn [r at0 vadd vmul smul].
    change (T massless / m (init massless)
            * (at0 (v (init massless)) / norm (v (init massless))))
      with nan.
    rewrite F64.add_nan_r. reflexivity. }
  destruct B as (s' & B & E).
  assert (N : norm (r s') = nan).
  { unfold norm. now rewrite E, F64.mul_nan_l, F64.add_nan_l. }
  exists s'. cbn [loop].
  change (guard massless (init massless)) with true. rewrite B.
  unfold guard, summary, reached_mars. rewrite N.
  repeat split.
Qed.

(** C2 (amended).  The condition [norm(r) < r_mars] is evaluated before
    every execution of the body, the first included: a loop that ends
    normally has completed some number [n] of iterations, the condition was
    true in the state before each of them and is false in the final state,
    which is the first such state; conversely a state reached by [n]
    iterations in which the condition is false ends the loop whenever the
    bound allows [n] iterations.  In that final state [norm(r) >= r_mars]
    holds, and the reported boolean is true, exactly when neither the
    radius nor the target is a NaN. *)
Theorem loop_exit_first_guard_false
  (pow : float -> float -> float) (c : Config) (fuel : nat) (s' : State)
  (H : loop pow c fuel (init c) = Some (Ok s')) :
  (norm (r s') <? r_mars c) = false /\
  (exists n,
      (n <= fuel)%nat /\
      iterations pow c n (init c) = Some s' /\
      (forall k, (k < n)%nat ->
         exists sk, iterations pow c k (init c) = Some sk /\
                    (norm (r sk) <? r_mars c) = true) /\
      (forall fuel', (n <= fuel')%nat ->
         loop pow c fuel' (init c) = Some (Ok s'))) /\
  (reached_mars (summary c s') = true <->
   is_nan (norm (r s')) = false /\ is_nan (r_mars c) = false) /\
  (reached_mars (summary c s') = true <-> (r_mars c <=? norm (r s')) = true).
Proof.
  apply loop_exit_inv in H. destruct H as (n & Hn & Hit & G).
  split; [exact G|]. split.
  - exists n. repeat split; auto.
    + intros k Hk. exact (iterations_prefix pow c n _ _ Hit k Hk).
    + intros fuel' Hf. exact (loop_exit_intro pow c n _ _ Hit G fuel' Hf).
  - split; [|reflexivity].
    unfold summary, reached_mars. apply F64.not_ltb_geb. exact G.
Qed.

(** With the time step [4e6] the loop of the source's configuration ends
    after four iterations, beyond the target radius. *)
Lemma loop_exit_first_guard_false_coarse :
  exists s',
    loop pow_cube coarse 10 (init coarse) = Some (Ok s') /\
    iterations pow_cube coarse 4 (init coarse) = Some s' /\
    (norm (r s') <? r_mars coarse) = false /\
    reached_mars (summary coarse s') = true.
Proof.
  destruct (loop pow_cube coarse 10 (init coarse)) as [[s'|e]|] eqn:L;
    [|vm_compute in L; discriminate|vm_compute in L; discriminate].
  exists s'.
  destruct (loop_exit_first_guard_false pow_cube coarse 10 s' L)
    as (G & _ & R & _).
  repeat split; try assumption.
  - vm_compute in L. injection L as <-. vm_compute. reflexivity.
  - apply R. vm_compute in L. injection L as <-.
    split; vm_compute; reflexivity.
Defined.

(** C6, as the spec states it, fails: with the target radius equal to the
    initial radius the condition is false at the first test, and the loop
    ends at once, whatever the bound on the number of iterations. *)
Lemma loop_ends_when_target_not_above :
  (r_mars at_target <=? r_earth at_target) = true /\
  loop pow_cube at_target 0 (init at_target) = Some (Ok (init at_target)) /\
  (forall fuel, loop pow_cube at_target fuel (init at_target) <> None).
Proof.
  split; [vm_compute; reflexivity|].
  split; [vm_compute; reflexivity|].
  intros [|fuel]; vm_compute; discriminate.
Qed.

(** C6 (amended).  When the target radius is at most the radius of the
    initial position, the loop executes no iteration: it ends at once in the
    initial state, for every bound, and [main] reports the target reached,
    the initial radius and mass, and a travel time of zero. *)
Theorem loop_zero_iterations_when_target_not_above
  (pow : float -> float -> float) (c : Config)
  (H : (r_mars c <=? norm (r (init c))) = true) :
  forall fuel,
    loop pow c fuel (init c) = Some (Ok (init c)) /\
    main pow c fuel =
      Some (Ok (report true (norm (r (init c))) (m0 c) (0 / 3.154e7))).
Proof.
  intros fuel.
  assert (G : guard c (init c) = false)
    by (unfold guard; now apply F64.leb_ltb_false).
  assert (L : loop pow c fuel (init c) = Some (Ok (init c)))
    by (destruct fuel; simpl; now rewrite G).
  split; [exact L|].
  unfold main. rewrite L. unfold summary. rewrite H. reflexivity.
Qed.

(** For the initial radius of the source the radius of the initial position
    is that radius, and a target equal to it stops the loop at once. *)
Lemma loop_zero_iterations_at_target :
  norm (r (init at_target)) = r_earth at_target /\
  (r_mars at_target <=? r_earth at_target) = true /\
  forall fuel,
    loop pow_cube at_target fuel (init at_target) = Some (Ok (init at_target)).
Proof.
  split; [vm_compute; reflexivity|].
  split; [vm_compute; reflexivity|].
  intros fuel.
  apply (loop_zero_iterations_when_target_not_above pow_cube at_target).
  vm_compute; reflexivity.
Defined.

(** * Samples and elapsed time *)

Section Samples.

Variable pow : float -> float -> float.
Variable c : Config.

(** An iteration appends the new position to both vectors, adds [dt] to
    the time and subtracts [mdot * dt] from the mass. *)
Lemma body_fields (s s' : State) :
  body pow c s = Ok s' ->
  x s' = x s ++ [at0 (r s')] /\
  y s' = y s ++ [at1 (r s')] /\
  t s' = t s + dt c /\
  m s' = m s - mdot c * dt c.
Proof.
  unfold body. destruct (accel pow c s) as [a|e]; simpl; [|discriminate].
  intros H. injection H as <-. simpl. auto.
Qed.

Lemma iterations_fun (n : nat) (s s1 s2 : State) :
  iterations pow c n s = Some s1 -> iterations pow c n s = Some s2 -> s1 = s2.
Proof. congruence. Qed.

Lemma iterations_counters (n : nat) (s : State) :
  iterations pow c n (init c) = Some s ->
  List.length (x s) = S n /\ List.length (y s) = S n /\
  t s = elapsed (dt c) n /\ m s = depleted c n.
Proof.
  revert s. induction n as [|n IH]; intros s H.
  - injection H as <-. repeat split.
  - apply iterations_snoc in H. destruct H as (s1 & H1 & _ & B).
    destruct (IH s1 H1) as (Lx & Ly & Ht & Hm).
    destruct (body_fields s1 s B) as (Ex & Ey & Et & Em).
    rewrite Ex, Ey, Et, Em, !length_app, Lx, Ly, Ht, Hm. simpl.
    repeat split; lia.
Qed.

Lemma iterations_samples (n : nat) (s : State) :
  iterations pow c n (init c) = Some s ->
  forall k sk, (k <= n)%nat ->
    iterations pow c k (init c) = Some sk ->
    nth_error (x s) k = Some (at0 (r sk)) /\
    nth_error (y s) k = Some (at1 (r sk)).
Proof.
  revert s. induction n as [|n IH]; intros s H k sk Hk Hsk.
  - assert (k = O) by lia. subst k.
    injection H as <-. injection Hsk as <-. split; reflexivity.
  - apply iterations_snoc in H. destruct H as (s1 & H1 & G & B).
    destruct (iterations_counters n s1 H1) as (Lx & Ly & _).
    destruct (body_fields s1 s B) as (Ex & Ey & _).
    rewrite Ex, Ey.
    destruct (Nat.eq_dec k (S n)) as [->|Hne].
    + assert (E : sk = s).
      { apply (iterations_fun (S n) (init c)); [exact Hsk|].
        apply iterations_snoc. eauto. }
      subst sk.
      rewrite !nth_error_app2 by lia.
      rewrite Lx, Ly, Nat.sub_diag. split; reflexivity.
    + rewrite !nth_error_app1 by lia.
      apply (IH s1 H1 k sk); [lia | exact Hsk].
Qed.

End Samples.

(** ** Time steps that are integers

    An integral [dt] is added exactly as long as the sum is below [2^53]. *)

Lemma of_nat_spec (K : nat) :
  (Z.of_nat K < 2 ^ 63)%Z -> Prim2SF (double_of_nat K) = Z2SF (Z.of_nat K).
Proof.
  intros H. unfold double_of_nat, Z2SF.
  rewrite of_uint63_spec, Uint63.of_Z_spec, Z.mod_small; [reflexivity|].
  unfold Uint63.wB. simpl. lia.
Qed.

Lemma elapsed_int (k : float) (K n : nat) :
  Prim2SF k = Z2SF (Z.of_nat K) -> (0 < K)%nat ->
  (Z.of_nat K * Z.of_nat n < 2 ^ 53)%Z ->
  Prim2SF (elapsed k n) = Z2SF (Z.of_nat K * Z.of_nat n).
Proof.
  intros Ek HK. induction n as [|n IH]; intros Hn.
  - rewrite Z.mul_0_r. reflexivity.
  - unfold elapsed. rewrite Nat.iter_succ. fold (elapsed k n).
    rewrite add_spec, IH, Ek by lia.
    rewrite F64.Z2SF_add_nonneg by lia. f_equal. lia.
Qed.

Lemma elapsed_of_nat (k : float) (K n : nat) :
  k = double_of_nat K -> (0 < Z.of_nat K < 2 ^ 53)%Z ->
  (Z.of_nat K * Z.of_nat n < 2 ^ 53)%Z ->
  elapsed k n = double_of_nat (K * n).
Proof.
  intros -> HK Hn. apply Prim2SF_inj.
  rewrite (elapsed_int (double_of_nat K) K n); auto; try lia.
  - rewrite of_nat_spec by lia. now rewrite Nat2Z.inj_mul.
  - apply of_nat_spec. lia.
Qed.

(** [n * dt] for a whole step: the double product is the integer product. *)
Lemma of_nat_mul (K n : nat) :
  (0 < Z.of_nat K < 2 ^ 53)%Z -> (Z.of_nat K * Z.of_nat n < 2 ^ 53)%Z ->
  double_of_nat n * double_of_nat K = double_of_nat (K * n).
Proof.
  intros HK Hn. apply Prim2SF_inj.
  rewrite mul_spec, !of_nat_spec by nia.
  rewrite Nat2Z.inj_mul, (Z.mul_comm (Z.of_nat K)).
  apply F64.Z2SF_mul_nonneg; lia.
Qed.

Lemma elapsed_inj (k : float) (K n n' : nat) :
  k = double_of_nat K -> (0 < Z.of_nat K < 2 ^ 53)%Z ->
  (Z.of_nat K * Z.of_nat n < 2 ^ 53)%Z ->
  (Z.of_nat K * Z.of_nat n' < 2 ^ 53)%Z ->
  elapsed k n = elapsed k n' -> n = n'.
Proof.
  intros -> HK Hn Hn' E.
  apply (f_equal Prim2SF) in E.
  rewrite !(elapsed_int (double_of_nat K) K) in E; auto;
    try lia; try (apply of_nat_spec; lia).
  apply F64.Z2SF_inj in E; nia.
Qed.

(** The whole-number step matters for the product form: [0.1] is not a
    double, and six additions of the double nearest to it do not give the
    double product [6 * 0.1].  The source's step is [50.0]. *)
Lemma elapsed_is_not_product :
  exists s,
    iterations pow_cube fine 6 (init fine) = Some s /\
    (t s =? double_of_nat 6 * dt fine) = false /\
    t s <> double_of_nat 6 * dt fine.
Proof.
  eexists. split; [vm_compute; reflexivity|].
  split; [vm_compute; reflexivity|].
  vm_compute. discriminate.
Qed.

(** C10.  After [n] completed iterations the x and y sample vectors both
    have length [n + 1]: entry [k] is the position after [k] iterations, the
    initial position first; and the elapsed time is the result of adding
    [dt] to [0.0] [n] times.  When [dt] is a whole number [K], as the
    [dt = 50.0] of the source is, and [K * n] is below [2^53], that sum is
    exactly [n * dt]: the double product, which is the integer [K * n].  The
    sample count then gives the elapsed time as [(count - 1) * dt], and no
    earlier state of the run has the same elapsed time, so the elapsed time
    gives the count. *)
Theorem samples_and_time_after
  (pow : float -> float -> float) (c : Config) (n : nat) (s : State)
  (H : iterations pow c n (init c) = Some s) :
  List.length (x s) = S n /\
  List.length (y s) = S n /\
  t s = elapsed (dt c) n /\
  t s = elapsed (dt c) (List.length (x s) - 1) /\
  (forall k sk, (k <= n)%nat ->
     iterations pow c k (init c) = Some sk ->
     nth_error (x s) k = Some (at0 (r sk)) /\
     nth_error (y s) k = Some (at1 (r sk))) /\
  (forall K : nat,
     dt c = double_of_nat K -> (0 < Z.of_nat K < 2 ^ 53)%Z ->
     (Z.of_nat K * Z.of_nat n < 2 ^ 53)%Z ->
     t s = double_of_nat n * dt c /\
     t s = double_of_nat (K * n) /\
     t s = double_of_nat (List.length (x s) - 1) * dt c /\
     (forall k sk, (k <= n)%nat ->
        iterations pow c k (init c) = Some sk -> t sk = t s -> k = n)) /\
  dt shipped = double_of_nat 50.
Proof.
  destruct (iterations_counters pow c n s H) as (Lx & Ly & Ht & _).
  split; [exact Lx|]. split; [exact Ly|]. split; [exact Ht|].
  split; [rewrite Lx; simpl; now rewrite Nat.sub_0_r|].
  split; [intros k sk Hk Hsk; now apply (iterations_samples pow c n s H k sk)|].
  split; [|vm_compute; reflexivity].
  intros K EK HK Hn.
  assert (P : t s = double_of_nat (K * n))
    by (rewrite Ht; now apply elapsed_of_nat).
  assert (Q : t s = double_of_nat n * dt c)
    by (rewrite P, EK; symmetry; now apply of_nat_mul).
  split; [exact Q|]. split; [exact P|]. split.
  - rewrite Lx. simpl. now rewrite Nat.sub_0_r.
  - intros k sk Hk Hsk E.
    destruct (iterations_counters pow c k sk Hsk) as (_ & _ & Htk & _).
    rewrite Ht, Htk in E.
    apply (elapsed_inj (dt c) K k n EK HK); [nia | exact Hn | exact E].
Qed.

(** Three iterations of the source's configuration: four samples each, and
    the elapsed time [3 * 50.0 = 150.0]. *)
Lemma samples_and_time_after_shipped :
  exists s,
    iterations pow_cube shipped 3 (init shipped) = Some s /\
    List.length (x s) = 4%nat /\ List.length (y s) = 4%nat /\
    t s = double_of_nat 3 * dt shipped /\
    t s = 150.
Proof.
  destruct (iterations pow_cube shipped 3 (init shipped)) as [s|] eqn:I;
    [|vm_compute in I; discriminate].
  exists s.
  destruct (samples_and_time_after pow_cube shipped 3 s I)
    as (Lx & Ly & _ & _ & _ & HK & E50).
  destruct (HK 50%nat E50) as (Q & P & _); [lia | lia |].
  split; [reflexivity|]. split; [exact Lx|]. split; [exact Ly|].
  split; [exact Q|]. rewrite P. reflexivity.
Defined.

(** * The gravitational term *)

(** C9.  The guarantee of the vector division does not cover the
    gravitational term.  When the radius is zero (and the C library returns
    [pow(0, 3) = 0]) the scalar [-mu / pow(norm(r), 3)] is an unguarded
    division by zero: it is an infinity or a NaN, so are both components of
    the gravitational acceleration and of the total acceleration, and the
    iteration does not throw for that: it throws exactly when the speed
    [norm(v)] compares equal to zero, and otherwise completes with a
    velocity and a position whose components are all infinite or NaN. *)
Theorem a_grav_unguarded_at_zero_radius
  (pow : float -> float -> float) (c : Config) (s : State)
  (Hpow : pow 0 3 = 0)
  (Hr : norm (r s) = 0) :
  is_finite (- mu c / pow (norm (r s)) 3) = false /\
  (is_finite (at0 (a_grav pow c s)) = false /\
   is_finite (at1 (a_grav pow c s)) = false) /\
  (forall a, accel pow c s = Ok a ->
             is_finite (at0 a) = false /\ is_finite (at1 a) = false) /\
  (forall e, body pow c s = Throw e <->
             (norm (v s) =? 0) = true /\ e = division_by_zero) /\
  ((norm (v s) =? 0) = false ->
   exists s', body pow c s = Ok s' /\
     is_finite (at0 (v s')) = false /\ is_finite (at1 (v s')) = false /\
     is_finite (at0 (r s')) = false /\ is_finite (at1 (r s')) = false).
Proof.
  assert (K : is_finite (- mu c / pow (norm (r s)) 3) = false)
    by (rewrite Hr, Hpow; apply F64.div_zero_not_finite).
  assert (G : forall q, is_finite (- mu c / pow (norm (r s)) 3 * q) = false)
    by (intros q; now apply F64.mul_not_finite_l).
  split; [exact K|]. split; [split; apply G|].
  split.
  { intros a. unfold accel, a_thrust.
    destruct (vdiv (v s) (norm (v s))) as [u|e]; simpl; [|discriminate].
    intros E. injection E as <-.
    split; apply F64.add_not_finite_l, G. }
  split; [intros e; apply body_throws_iff|].
  intros Hv. unfold body, accel, a_thrust, vdiv. rewrite Hv. simpl.
  eexists. split; [reflexivity|]. simpl.
  assert (V : forall p q d w,
             is_finite (w + (- mu c / pow (norm (r s)) 3 * p + q) * d) = false)
    by (intros p q d w;
        apply F64.add_not_finite_r, F64.mul_not_finite_l,
              F64.add_not_finite_l, G).
  repeat split;
    try apply V;
    apply F64.add_not_finite_r, F64.mul_not_finite_l, V.
Qed.

(** The gravitational term at the centre: a run that starts at radius zero
    completes its first iteration with NaNs in the state. *)
Lemma a_grav_unguarded_at_centre :
  pow_cube 0 3 = 0 /\
  norm (r (init at_centre)) = 0 /\
  exists s',
    body pow_cube at_centre (init at_centre) = Ok s' /\
    is_finite (at0 (r s')) = false /\ is_finite (at1 (r s')) = false.
Proof.
  assert (Hpow : pow_cube 0 3 = 0) by (vm_compute; reflexivity).
  assert (Hr : norm (r (init at_centre)) = 0) by (vm_compute; reflexivity).
  split; [exact Hpow|]. split; [exact Hr|].
  destruct (a_grav_unguarded_at_zero_radius pow_cube at_centre
              (init at_centre) Hpow Hr) as (_ & _ & _ & _ & H).
  destruct H as (s' & B & _ & _ & R0 & R1); [vm_compute; reflexivity|].
  exists s'. auto.
Defined.

(** * Mass and mass flow rate *)

Section Depletion.

Variable c : Config.

(** Once the mass is not strictly positive it never is again. *)
Lemma depleted_not_positive_stays (k n : nat) :
  (0 <? mdot c * dt c) = true -> (k <= n)%nat ->
  (0 <? depleted c k) = false -> (0 <? depleted c n) = false.
Proof.
  intros Hd Hle. induction Hle as [|n Hle IH]; intros Hk; [exact Hk|].
  unfold depleted. rewrite Nat.iter_succ.
  apply F64.sub_not_positive; auto.
Qed.

(** The exponent of a strictly positive mass never exceeds that of the
    initial mass. *)
Lemma depleted_exp_le (E : Z) (md : positive) (ed : Z) :
  Prim2SF (mdot c * dt c) = S754_finite false md ed ->
  SFexp_le E (Prim2SF (m0 c)) ->
  forall n, SFexp_le E (Prim2SF (depleted c n)).
Proof.
  intros Ed H0 n. induction n as [|n IH]; [exact H0|].
  unfold depleted. rewrite Nat.iter_succ. fold (depleted c n).
  rewrite sub_spec, Ed.
  apply F64.SFsub_exp_le; [apply Prim2SF_valid | exact IH].
Qed.

(** When the decrement is at least the spacing of the doubles at the
    initial mass, every update of a strictly positive mass lowers it. *)
Lemma depleted_decreasing (n : nat) :
  spacing_le (m0 c) (mdot c * dt c) = true ->
  (0 <? depleted c n) = true ->
  (depleted c (S n) <? depleted c n) = true.
Proof.
  unfold spacing_le. intros Hs Hpos.
  destruct (Prim2SF (m0 c)) as [s0|s0| |[|] M0 E0] eqn:E0m; try discriminate.
  destruct (Prim2SF (mdot c * dt c)) as [sd|sd| |[|] md ed] eqn:Ed;
    try discriminate.
  apply Z.ltb_lt in Hs.
  assert (H0 : SFexp_le E0 (Prim2SF (m0 c))) by (rewrite E0m; simpl; lia).
  pose proof (depleted_exp_le E0 md ed Ed H0 n) as Hn.
  rewrite F64.ltb_zero_spec in Hpos.
  unfold depleted at 1. rewrite Nat.iter_succ. fold (depleted c n).
  rewrite ltb_spec, sub_spec, Ed.
  apply (F64.SFsub_lt E0); auto. apply Prim2SF_valid.
Qed.

End Depletion.

(** C5, as the spec states it, fails: with the initial mass [1e13] and the
    other constants of the source (thrust, mass flow rate and time step all
    strictly positive) the decrement [mdot * dt] is below half the spacing
    of the doubles around the mass, the subtraction returns the mass
    unchanged, and the mass does not decrease. *)
Lemma mass_not_strictly_decreasing :
  (0 <? T heavy) = true /\
  (0 <? mdot heavy) = true /\
  (0 <? dt heavy) = true /\
  exists s',
    body pow_cube heavy (init heavy) = Ok s' /\
    (0 <? m (init heavy)) = true /\
    (m s' <? m (init heavy)) = false /\
    m s' = m (init heavy).
Proof.
  repeat (split; [vm_compute; reflexivity|]).
  eexists. split; [vm_compute; reflexivity|].
  repeat split; vm_compute; reflexivity.
Qed.

(** C5 (amended).  Every completed iteration replaces the mass by the
    double [m - mdot * dt], with no floor: after [n] iterations the mass is
    the initial mass with [mdot * dt] subtracted [n] times, and for a
    strictly positive decrement a mass that is not strictly positive stays
    so for the rest of the run, while a strictly positive finite mass never
    increases.  The mass strictly decreases at every step, while [m > 0],
    when the decrement is at least the spacing of the doubles at the
    initial mass, as it is for the constants of the source. *)
Theorem mass_update_no_floor
  (pow : float -> float -> float) (c : Config) (n : nat) (s s' : State)
  (Hn : iterations pow c n (init c) = Some s)
  (Hb : body pow c s = Ok s') :
  m s' = m s - mdot c * dt c /\
  (m s = depleted c n /\ m s' = depleted c (S n)) /\
  ((0 <? mdot c * dt c) = true ->
   ((0 <? m s) = false ->
    forall k sk, (n <= k)%nat -> iterations pow c k (init c) = Some sk ->
                 (0 <? m sk) = false) /\
   ((0 <? m s) = true -> (m s <? infinity) = true ->
    (m s' <=? m s) = true)) /\
  (spacing_le (m0 c) (mdot c * dt c) = true ->
   (0 <? m s) = true -> (m s' <? m s) = true) /\
  spacing_le (m0 shipped) (mdot shipped * dt shipped) = true.
Proof.
  destruct (body_fields pow c s s' Hb) as (_ & _ & _ & Em).
  destruct (iterations_counters pow c n s Hn) as (_ & _ & _ & Hm).
  assert (Hm' : m s' = depleted c (S n))
    by (rewrite Em, Hm; unfold depleted; now rewrite Nat.iter_succ).
  split; [exact Em|]. split; [now split|].
  split; [|split].
  - intros Hd. split.
    + intros Hs k sk Hk Hsk.
      destruct (iterations_counters pow c k sk Hsk) as (_ & _ & _ & Hmk).
      rewrite Hmk. apply (depleted_not_positive_stays c n k Hd Hk).
      now rewrite <- Hm.
    + intros Hs Hfin. rewrite Em. now apply F64.sub_le_positive.
  - intros Hsp Hs. rewrite Hm', Hm. apply depleted_decreasing; auto.
    now rewrite <- Hm.
  - vm_compute. reflexivity.
Qed.

(** The first iteration of the source's configuration lowers the mass. *)
Lemma mass_update_no_floor_shipped :
  exists s',
    body pow_cube shipped (init shipped) = Ok s' /\
    m s' = 10000 - mdot shipped * dt shipped /\
    (m s' <=? m (init shipped)) = true /\
    (m s' <? m (init shipped)) = true.
Proof.
  destruct (body pow_cube shipped (init shipped)) as [s'|e] eqn:B;
    [|vm_compute in B; discriminate].
  exists s'.
  destruct (mass_update_no_floor pow_cube shipped 0 (init shipped) s'
              eq_refl B) as (Em & _ & Hmono & Hdec & Hsp).
  split; [reflexivity|]. split; [exact Em|]. split.
  - apply Hmono; reflexivity.
  - apply Hdec; [exact Hsp | reflexivity].
Defined.

(** Nothing stops the mass at zero: with the initial mass [1e-4] and the
    other constants of the source the first iteration makes the mass
    negative and the second one runs from it. *)
Lemma mass_goes_negative :
  exists s1 s2,
    iterations pow_cube light 1 (init light) = Some s1 /\
    iterations pow_cube light 2 (init light) = Some s2 /\
    (0 <? m (init light)) = true /\
    (m s1 <? 0) = true /\ (m s2 <? m s1) = true.
Proof.
  do 2 eexists. split; [vm_compute; reflexivity|].
  split; [vm_compute; reflexivity|].
  repeat split; vm_compute; reflexivity.
Qed.

(** C7, as the spec states it, fails on positivity: the least positive
    double as thrust, with the specific impulse and the standard gravity of
    the source, gives a quotient that rounds to zero. *)
Lemma mdot_zero_for_positive_constants :
  (0 <? T faint) = true /\
  (0 <? Isp faint) = true /\
  (0 <? g faint) = true /\
  (0 <? mdot faint) = false /\
  mdot faint = 0.
Proof. repeat split; vm_compute; reflexivity. Qed.

(** C7 (amended).  The mass flow rate is the constant
    [T / (Isp * g)] of the configuration: every iteration subtracts the same
    [mdot * dt], so the mass after [n] iterations is fixed by [n] alone.
    For a strictly positive finite thrust and strictly positive specific
    impulse and standard gravity it is never negative and never a NaN, and
    it is strictly positive unless the quotient rounds to zero. *)
Theorem mdot_constant_nonnegative
  (pow : float -> float -> float) (c : Config)
  (HT : (0 <? T c) = true) (HTfin : (T c <? infinity) = true)
  (HI : (0 <? Isp c) = true) (Hg : (0 <? g c) = true) :
  mdot c = T c / (Isp c * g c) /\
  (forall s s', body pow c s = Ok s' -> m s' = m s - mdot c * dt c) /\
  (forall n s, iterations pow c n (init c) = Some s -> m s = depleted c n) /\
  (0 <=? mdot c) = true /\
  (mdot c <? 0) = false /\
  is_nan (mdot c) = false /\
  (0 <? mdot c) = negb (mdot c =? 0).
Proof.
  split; [reflexivity|].
  split; [intros s s' Hb; apply (body_fields pow c s s' Hb)|].
  split; [intros n s Hn; apply (iterations_counters pow c n s Hn)|].
  unfold mdot. now apply F64.div_mul_positive.
Qed.

(** The constants of the source give a strictly positive mass flow rate. *)
Lemma mdot_constant_nonnegative_shipped :
  mdot shipped = 450e-6 / (9000 * 9.81e-3) /\
  (0 <? mdot shipped) = true.
Proof.
  destruct (mdot_constant_nonnegative pow_cube shipped)
    as (E & _ & _ & _ & _ & _ & P); try reflexivity.
  split; [exact E|]. rewrite P. reflexivity.
Defined.

(** * Further facts of binary64 arithmetic *)

Module F64Ops.

(** *** Addition, subtraction and negation *)

Lemma SFadd_comm (a b : spec_float) : SF64add a b = SF64add b a.
Proof.
  unfold SF64add, SFadd.
  destruct a as [sa|sa| |sa ma ea], b as [sb|sb| |sb mb eb];
    try reflexivity; try (destruct sa, sb; reflexivity).
  now rewrite (Z.min_comm eb ea), Z.add_comm.
Qed.

Lemma add_comm (a b : float) : a + b = b + a.
Proof. apply Prim2SF_inj. rewrite !add_spec. apply SFadd_comm. Qed.

Lemma SFsub_add_opp (a b : spec_float) :
  SF64sub a b = SF64add a (SFopp b).
Proof.
  unfold SF64sub, SF64add, SFsub, SFadd, SFopp.
  destruct a as [sa|sa| |sa ma ea], b as [sb|sb| |sb mb eb];
    try reflexivity; destruct sa, sb; reflexivity.
Qed.

Lemma sub_add_opp (a b : float) : a - b = a + - b.
Proof.
  apply Prim2SF_inj. rewrite sub_spec, add_spec, opp_spec.
  apply SFsub_add_opp.
Qed.

(** Rounding commutes with negation. *)
Lemma binary_round_aux_opp (sx : bool) (mm e : Z) (l : location) :
  SFopp (binary_round_aux prec emax sx mm e l)
    = binary_round_aux prec emax (negb sx) mm e l.
Proof.
  unfold binary_round_aux.
  destruct (shr_fexp prec emax mm e l) as [mrs1 e1].
  destruct (shr_fexp prec emax _ e1 loc_Exact) as [mrs2 e2].
  destruct (shr_m mrs2) as [|q|q]; try reflexivity.
  now destruct (e2 <=? emax - prec)%Z.
Qed.

Lemma binary_round_opp (sx : bool) (p : positive) (e : Z) :
  SFopp (binary_round prec emax sx p e) = binary_round prec emax (negb sx) p e.
Proof.
  unfold binary_round.
  destruct (shl_align p e (fexp prec emax (Z.pos (digits2_pos p) + e)))
    as [mz ez].
  apply binary_round_aux_opp.
Qed.

Lemma binary_normalize_opp (mm e : Z) :
  mm <> 0%Z ->
  SFopp (binary_normalize prec emax mm e false)
    = binary_normalize prec emax (- mm) e false.
Proof.
  intros H. destruct mm as [|p|p]; [contradiction| |]; simpl.
  - apply binary_round_opp.
  - apply (binary_round_opp true).
Qed.

(** The two differences of a pair are opposite, or both are zeros. *)
Lemma SFsub_swap (a b : spec_float) :
  SF64sub b a = SFopp (SF64sub a b) \/
  (SFis_zero (SF64sub a b) = true /\ SFis_zero (SF64sub b a) = true).
Proof.
  destruct a as [sa|sa| |sa ma ea], b as [sb|sb| |sb mb eb];
    try (left; reflexivity);
    try (destruct sa, sb; (left; reflexivity) || (right; split; reflexivity)).
  unfold SF64sub, SFsub. rewrite (Z.min_comm eb ea).
  set (cx := cond_Zopp sa (Z.pos (fst (shl_align ma ea (Z.min ea eb))))).
  set (cy := cond_Zopp sb (Z.pos (fst (shl_align mb eb (Z.min ea eb))))).
  destruct (Z.eq_dec (cx - cy) 0) as [E|N].
  - right. replace (cy - cx)%Z with 0%Z by lia. rewrite E. split; reflexivity.
  - left. rewrite binary_normalize_opp by exact N. f_equal. lia.
Qed.

(** A square does not see the sign. *)
Lemma SFmul_opp_opp (a b : spec_float) :
  SF64mul (SFopp a) (SFopp b) = SF64mul a b.
Proof.
  destruct a as [sa|sa| |sa ma ea], b as [sb|sb| |sb mb eb];
    try reflexivity; simpl; now destruct sa, sb.
Qed.

Lemma SFsq_zero (a b : spec_float) :
  SFis_zero a = true -> SFis_zero b = true -> SF64mul a a = SF64mul b b.
Proof.
  destruct a as [[|]| | |], b as [[|]| | |]; try discriminate; reflexivity.
Qed.

Lemma sub_sq_swap (a b : float) : (a - b) * (a - b) = (b - a) * (b - a).
Proof.
  apply Prim2SF_inj. rewrite !mul_spec, !sub_spec.
  destruct (SFsub_swap (Prim2SF a) (Prim2SF b)) as [E|[Z1 Z2]].
  - now rewrite E, SFmul_opp_opp.
  - now apply SFsq_zero.
Qed.

Lemma opp_sq (a : float) : (- a) * (- a) = a * a.
Proof.
  apply Prim2SF_inj. rewrite !mul_spec, !opp_spec. apply SFmul_opp_opp.
Qed.

(** *** Multiplying by one and by minus one *)

Lemma SFmul_unit (s1 : bool) (a : spec_float) :
  valid_binary a = true ->
  SF64mul (S754_finite s1 4503599627370496 (-52)) a
    = if s1 then SFopp a else a.
Proof.
  intros Hv.
  destruct a as [sa|sa| |sa ma ea];
    try (now destruct s1, sa); try (now destruct s1).
  unfold SF64mul, SFmul.
  destruct (F64.bounded_spec ma ea Hv) as [Hc Hmax].
  assert (Em : (Z.pos (4503599627370496 * ma) = Z.pos ma * 2 ^ 52)%Z)
    by (rewrite Pos2Z.inj_mul; change (2 ^ 52)%Z with 4503599627370496%Z; lia).
  pose proof (F64.digits2_pos_shift ma (4503599627370496 * ma) 52
                ltac:(lia) Em) as Hd.
  pose proof (F64.binary_round_aux_exact (xorb s1 sa)
                (4503599627370496 * ma) (-52 + ea) ma) as R.
  cbv zeta in R.
  replace (Z.pos (digits2_pos (4503599627370496 * ma)) + (-52 + ea))%Z
    with (Z.pos (digits2_pos ma) + ea)%Z in R by lia.
  rewrite Hc in R. rewrite R; try lia.
  - now destruct s1, sa.
  - replace (ea - (-52 + ea))%Z with 52%Z by lia. exact Em.
Qed.

Lemma mul_one_l (a : float) : 1 * a = a.
Proof.
  apply Prim2SF_inj. rewrite mul_spec.
  change (Prim2SF 1) with (S754_finite false 4503599627370496 (-52)).
  apply (SFmul_unit false). apply Prim2SF_valid.
Qed.

Lemma mul_minus_one_l (a : float) : (-1) * a = - a.
Proof.
  apply Prim2SF_inj. rewrite mul_spec, opp_spec.
  change (Prim2SF (-1)) with (S754_finite true 4503599627370496 (-52)).
  apply (SFmul_unit true). apply Prim2SF_valid.
Qed.

(** *** Dividing by one *)

Lemma SFdiv_one (a : spec_float) :
  valid_binary a = true ->
  SF64div a (S754_finite false 4503599627370496 (-52)) = a.
Proof.
  intros Hv.
  destruct a as [sa|sa| |sa ma ea]; try (now destruct sa); try reflexivity.
  destruct (F64.bounded_spec ma ea Hv) as [Hc Hmax].
  unfold SF64div, SFdiv, SFdiv_core_binary.
  cbn [Zdigits2].
  change (Z.pos (digits2_pos 4503599627370496)) with 53%Z.
  set (d := Z.pos (digits2_pos ma)) in *.
  set (e' := Z.min (fexp prec emax (d + ea - (53 + -52))) (ea - -52)).
  assert (He' : (e' <= ea)%Z).
  { assert (fexp prec emax (d + ea - (53 + -52)) <= fexp prec emax (d + ea))%Z
      by (apply F64.fexp_mono; lia).
    unfold e'. lia. }
  assert (Hk : (0 <= ea - e')%Z) by lia.
  destruct (ea - -52 - e')%Z as [|sp|sp] eqn:Es; try lia.
  assert (Em : Z.shiftl (Z.pos ma) (Z.pos sp)
               = (Z.pos ma * 2 ^ (ea - e') * 4503599627370496)%Z).
  { rewrite Z.shiftl_mul_pow2 by lia.
    replace (Z.pos sp) with (ea - e' + 52)%Z by lia.
    rewrite Z.pow_add_r by lia. change (2 ^ 52)%Z with 4503599627370496%Z.
    lia. }
  assert (Hq : (Z.shiftl (Z.pos ma) (Z.pos sp) / 4503599627370496
                = Z.pos ma * 2 ^ (ea - e'))%Z)
    by (rewrite Em; apply Z.div_mul; lia).
  assert (Hr : (Z.shiftl (Z.pos ma) (Z.pos sp) mod 4503599627370496 = 0)%Z)
    by (rewrite Em; apply Z.mod_mul; lia).
  unfold Z.div in Hq. unfold Z.modulo in Hr.
  destruct (Z.div_eucl (Z.shiftl (Z.pos ma) (Z.pos sp)) 4503599627370496)
    as [q rr].
  subst q rr. cbn [new_location Z.even new_location_even Z.eqb].
  assert (Pq : (0 < Z.pos ma * 2 ^ (ea - e'))%Z)
    by (apply Z.mul_pos_pos; [lia | apply Z.pow_pos_nonneg; lia]).
  destruct (Z.pos ma * 2 ^ (ea - e'))%Z as [|pq|pq] eqn:Epq; try lia.
  pose proof (F64.digits2_pos_shift ma pq (ea - e') Hk (eq_sym Epq)) as Hd.
  pose proof (F64.binary_round_aux_exact (xorb sa false) pq e' ma) as R.
  cbv zeta in R.
  replace (Z.pos (digits2_pos pq) + e')%Z with (d + ea)%Z in R
    by (unfold d; lia).
  rewrite Hc in R. rewrite R; try lia.
  now rewrite xorb_false_r.
Qed.

Lemma div_one (a : float) : a / 1 = a.
Proof.
  apply Prim2SF_inj. rewrite div_spec.
  change (Prim2SF 1) with (S754_finite false 4503599627370496 (-52)).
  apply SFdiv_one, Prim2SF_valid.
Qed.

(** *** A number minus itself *)

Lemma SFsub_diag (a : spec_float) :
  SF64sub a a = if SFnonfinite a then S754_nan else S754_zero false.
Proof.
  destruct a as [[|]|[|]| |sa ma ea]; try reflexivity.
  unfold SF64sub, SFsub. now rewrite Z.sub_diag.
Qed.

Lemma sub_diag (a : float) : a - a = if is_finite a then 0 else nan.
Proof.
  apply Prim2SF_inj. rewrite sub_spec, SFsub_diag, F64.is_finite_spec.
  now destruct (SFnonfinite (Prim2SF a)).
Qed.

(** *** Squares, their sums and square roots *)

Lemma SFsq_sign (a : spec_float) :
  SFis_nan a = false -> SFsign_is false (SF64mul a a).
Proof.
  destruct a as [[|]|[|]| |sa ma ea]; try discriminate; try reflexivity.
  intros _. unfold SF64mul, SFmul. rewrite xorb_nilpotent.
  apply F64.binary_round_aux_sign. lia.
Qed.

Lemma SFadd_sign_false (a b : spec_float) :
  SFsign_is false a -> SFsign_is false b -> SFsign_is false (SF64add a b).
Proof.
  destruct a as [sa|sa| |sa ma ea], b as [sb|sb| |sb mb eb]; simpl;
    intros Ha Hb; try contradiction; subst sa sb; try reflexivity.
  destruct (shl_align ma ea (Z.min ea eb)) as [pa za].
  destruct (shl_align mb eb (Z.min ea eb)) as [pb zb].
  apply (F64.binary_round_sign false (pa + pb)).
Qed.

Lemma SFsqrt_sign_false (a : spec_float) :
  SFsign_is false a -> SFsign_is false (SF64sqrt a).
Proof.
  destruct a as [sa|sa| |sa ma ea]; simpl; intros Ha; try contradiction;
    subst sa; try reflexivity.
  unfold SFsqrt_core_binary.
  set (e' := Z.min _ _).
  set (m' := match (ea - 2 * e')%Z with
             | Z.pos _ => Z.shiftl (Z.pos ma) (ea - 2 * e')
             | 0%Z => Z.pos ma
             | Z.neg _ => 0%Z
             end).
  assert (H : (0 <= m')%Z).
  { subst m'. destruct (ea - 2 * e')%Z; try lia. apply Z.shiftl_nonneg. lia. }
  pose proof (Z.sqrtrem_spec m' H) as Hs.
  destruct (Z.sqrtrem m') as [q rr].
  apply F64.binary_round_aux_sign. lia.
Qed.

Lemma is_nan_eq (a : float) : is_nan a = true -> a = nan.
Proof.
  rewrite F64.is_nan_spec. intros H. apply Prim2SF_inj.
  change (Prim2SF nan) with S754_nan.
  now destruct (Prim2SF a).
Qed.

Lemma sign_false_zero (a : float) :
  SFsign_is false (Prim2SF a) -> (a =? 0) = true -> a = 0.
Proof.
  rewrite FloatAxioms.eqb_spec. change (Prim2SF 0) with (S754_zero false).
  intros Hs He. apply Prim2SF_inj. change (Prim2SF 0) with (S754_zero false).
  destruct (Prim2SF a) as [sa|sa| |sa ma ea]; simpl in Hs; try contradiction;
    subst sa; try reflexivity; discriminate.
Qed.

(** The root of a sum of two squares: a NaN exactly when an operand is a
    NaN, and otherwise a zero, finite number or infinity of positive sign. *)
Lemma hypot_spec (a b : float) :
  (is_nan a || is_nan b = true -> sqrt (a * a + b * b) = nan) /\
  (is_nan a || is_nan b = false ->
   SFsign_is false (Prim2SF (sqrt (a * a + b * b)))).
Proof.
  split.
  - intros H. apply orb_true_iff in H. destruct H as [H|H];
      apply is_nan_eq in H; subst.
    + now rewrite F64.mul_nan_l, F64.add_nan_l.
    + now rewrite F64.mul_nan_l, F64.add_nan_r.
  - intros H. apply orb_false_iff in H. destruct H as [Ha Hb].
    rewrite F64.is_nan_spec in Ha, Hb.
    rewrite sqrt_spec, add_spec, !mul_spec.
    apply SFsqrt_sign_false, SFadd_sign_false; now apply SFsq_sign.
Qed.

(** With an infinite operand and no NaN the root is [+infinity]. *)
Lemma hypot_infinity (a b : float) :
  is_nan a || is_nan b = false ->
  is_infinity a || is_infinity b = true ->
  sqrt (a * a + b * b) = infinity.
Proof.
  intros Hn Hi. apply orb_false_iff in Hn. destruct Hn as [Ha Hb].
  rewrite F64.is_nan_spec in Ha, Hb.
  unfold is_infinity in Hi.
  rewrite !FloatAxioms.eqb_spec, !abs_spec in Hi.
  change (Prim2SF infinity) with (S754_infinity false) in Hi.
  apply Prim2SF_inj. rewrite sqrt_spec, add_spec, !mul_spec.
  change (Prim2SF infinity) with (S754_infinity false).
  pose proof (SFsq_sign _ Ha) as Sa. pose proof (SFsq_sign _ Hb) as Sb.
  destruct (Prim2SF a) as [sa|sa| |sa ma ea]; try discriminate;
    destruct (Prim2SF b) as [sb|sb| |sb mb eb]; try discriminate;
    try (now destruct sa, sb); try (now destruct sa); try (now destruct sb).
  - (* infinite a, finite b *)
    destruct (SF64mul (S754_finite sb mb eb) (S754_finite sb mb eb))
      as [sr|sr| |sr mr er]; simpl in Sb; try contradiction; subst sr;
      now destruct sa.
  - (* finite a, infinite b *)
    destruct (SF64mul (S754_finite sa ma ea) (S754_finite sa ma ea))
      as [sr|sr| |sr mr er]; simpl in Sa; try contradiction; subst sr;
      now destruct sb.
Qed.

(** *** Comparing with a number that is not strictly positive *)

Lemma ltb_not_positive (a b : float) :
  SFsign_is false (Prim2SF a) -> (0 <? b) = false -> (a <? b) = false.
Proof.
  rewrite F64.ltb_zero_spec, ltb_spec. unfold SFltb.
  destruct (Prim2SF a) as [sa|sa| |sa ma ea]; simpl; intros Ha;
    try contradiction; subst sa;
    destruct (Prim2SF b) as [[|]|[|]| |[|] mb eb]; simpl;
    intros H; try discriminate; reflexivity.
Qed.

Lemma leb_not_positive (a b : float) :
  SFsign_is false (Prim2SF a) -> (0 <? b) = false -> is_nan b = false ->
  (b <=? a) = true.
Proof.
  rewrite F64.ltb_zero_spec, leb_spec, F64.is_nan_spec. unfold SFleb.
  destruct (Prim2SF a) as [sa|sa| |sa ma ea]; simpl; intros Ha;
    try contradiction; subst sa;
    destruct (Prim2SF b) as [[|]|[|]| |[|] mb eb]; simpl;
    intros H N; try discriminate; reflexivity.
Qed.

Lemma zero_div (a b : float) :
  (a =? 0) = true -> (b =? 0) = false -> is_nan b = false ->
  (a / b =? 0) = true.
Proof.
  rewrite F64.is_nan_spec, !FloatAxioms.eqb_spec, div_spec.
  change (Prim2SF 0) with (S754_zero false).
  destruct (Prim2SF a) as [sa|[|]| |[|] ma ea]; intros Ha;
    try discriminate Ha;
    destruct (Prim2SF b) as [sb|sb| |sb mb eb]; intros Hb Hn;
    try discriminate Hb; try discriminate Hn; reflexivity.
Qed.

Lemma mul_nan_r (a : float) : a * nan = nan.
Proof. rewrite F64.mul_comm. apply F64.mul_nan_l. Qed.

Lemma nan_leb (b : float) : (nan <=? b) = false.
Proof. rewrite leb_spec. reflexivity. Qed.

Lemma nan_compare (b : float) :
  (nan <? b) = false /\ (b <=? nan) = false /\ (b <? nan) = false.
Proof.
  rewrite !ltb_spec, leb_spec. change (Prim2SF nan) with S754_nan.
  unfold SFltb, SFleb. now destruct (Prim2SF b).
Qed.

Lemma infinity_compare (b : float) :
  (infinity <? b) = false /\ (b <=? infinity) = negb (is_nan b).
Proof.
  rewrite ltb_spec, leb_spec, F64.is_nan_spec.
  change (Prim2SF infinity) with (S754_infinity false).
  unfold SFltb, SFleb. now destruct (Prim2SF b) as [[|]|[|]| |[|] mb eb].
Qed.

Lemma div_nan_r (a : float) : a / nan = nan.
Proof.
  apply Prim2SF_inj. rewrite div_spec. change (Prim2SF nan) with S754_nan.
  now destruct (Prim2SF a).
Qed.

End F64Ops.

(** * The vector operators as an algebra *)

(** X1.  Vector addition is commutative. *)
Theorem vadd_comm (a b : Vec2) : vadd a b = vadd b a.
Proof.
  unfold vadd.
  now rewrite (F64Ops.add_comm (at0 a)), (F64Ops.add_comm (at1 a)).
Qed.

(** X2.  Subtracting a vector is adding it scaled by [-1], with the scalar
    on either side. *)
Theorem vsub_vadd_scaled (a b : Vec2) :
  vsub a b = vadd a (smul (-1) b) /\ vsub a b = vadd a (vmul b (-1)).
Proof.
  assert (E : vsub a b = vadd a (smul (-1) b)).
  { unfold vsub, vadd, smul. cbn [at0 at1].
    now rewrite !F64Ops.mul_minus_one_l, <- !F64Ops.sub_add_opp. }
  split; [exact E|].
  rewrite E. f_equal. unfold smul, vmul.
  now rewrite (F64.mul_comm (at0 b)), (F64.mul_comm (at1 b)).
Qed.

(** X3.  Scaling by one, on either side, and dividing by one return the
    vector unchanged. *)
Theorem scale_by_one (u : Vec2) :
  smul 1 u = u /\ vmul u 1 = u /\ vdiv u 1 = Ok u.
Proof.
  destruct u as [u0 u1]. unfold smul, vmul, vdiv. cbn [at0 at1].
  change (1 =? 0) with false.
  rewrite !F64Ops.mul_one_l, !(F64.mul_comm _ 1), !F64Ops.mul_one_l,
    !F64Ops.div_one.
  repeat split.
Qed.

(** X4.  A vector minus itself has the component [+0] where the vector's
    component is finite and a NaN where it is infinite or a NaN; so it is
    the zero vector exactly for finite vectors. *)
Theorem vsub_self (a : Vec2) :
  vsub a a = vec2 (if is_finite (at0 a) then 0 else nan)
                  (if is_finite (at1 a) then 0 else nan) /\
  (vsub a a = vec2 0 0 <->
   is_finite (at0 a) = true /\ is_finite (at1 a) = true).
Proof.
  assert (E : vsub a a = vec2 (if is_finite (at0 a) then 0 else nan)
                              (if is_finite (at1 a) then 0 else nan)).
  { unfold vsub. now rewrite !F64Ops.sub_diag. }
  split; [exact E|]. rewrite E.
  destruct (is_finite (at0 a)), (is_finite (at1 a)); split;
    try (intros [? ?]; discriminate); try (intros _; now auto);
    intros H.
  - apply (f_equal (fun w => is_nan (at1 w))) in H. discriminate H.
  - apply (f_equal (fun w => is_nan (at0 w))) in H. discriminate H.
  - apply (f_equal (fun w => is_nan (at0 w))) in H. discriminate H.
Qed.

(** * The norm *)

(** X5.  The norm does not see the sign of the vector or the order of its
    components. *)
Theorem norm_symmetries (u : Vec2) :
  norm (smul (-1) u) = norm u /\
  norm (vec2 (at1 u) (at0 u)) = norm u.
Proof.
  unfold norm, smul. cbn [at0 at1]. split.
  - now rewrite !F64Ops.mul_minus_one_l, !F64Ops.opp_sq.
  - now rewrite F64Ops.add_comm.
Qed.

(** X6.  The distance between two vectors is symmetric. *)
Theorem norm_vsub_swap (a b : Vec2) : norm (vsub a b) = norm (vsub b a).
Proof.
  unfold norm, vsub. cbn [at0 at1].
  now rewrite (F64Ops.sub_sq_swap (at0 a)), (F64Ops.sub_sq_swap (at1 a)).
Qed.

(** X7.  The norm is a NaN exactly when a component is a NaN; it is never
    negative, and never the negative zero: a norm that compares equal to
    zero is [+0]. *)
Theorem norm_sign (u : Vec2) :
  is_nan (norm u) = is_nan (at0 u) || is_nan (at1 u) /\
  (norm u <? 0) = false /\
  ((norm u =? 0) = true -> norm u = 0) /\
  norm u <> neg_zero.
Proof.
  destruct (F64Ops.hypot_spec (at0 u) (at1 u)) as [Hn Hs]. fold (norm u) in *.
  destruct (is_nan (at0 u) || is_nan (at1 u)) eqn:N.
  - rewrite (Hn eq_refl). repeat split; discriminate.
  - specialize (Hs eq_refl).
    destruct (F64.sign_false_leb (norm u) Hs) as (_ & Hlt & Hnan & _).
    repeat split; auto.
    + now apply F64Ops.sign_false_zero.
    + intros E. rewrite E in Hs. vm_compute in Hs. discriminate.
Qed.

(** X8.  A divisor that is a NaN is not rejected: the quotient is the
    vector of NaNs, whatever the dividend. *)
Theorem vdiv_nan_divisor (u : Vec2) (k : float) (H : is_nan k = true) :
  vdiv u k = Ok (vec2 nan nan).
Proof.
  apply F64Ops.is_nan_eq in H. subst k. unfold vdiv.
  change (nan =? 0) with false. now rewrite !F64Ops.div_nan_r.
Qed.

Lemma vdiv_nan_divisor_example : vdiv (vec2 3 4) nan = Ok (vec2 nan nan).
Proof. apply vdiv_nan_divisor. reflexivity. Defined.

(** * Exits of the loop *)

Section LoopExits.

Variable pow : float -> float -> float.
Variable c : Config.

Lemma loop_guard_false (fuel : nat) (s : State) :
  guard c s = false -> loop pow c fuel s = Some (Ok s).
Proof. intros G. destruct fuel; simpl; now rewrite G. Qed.

Lemma loop_throw_iff (fuel : nat) (s : State) (e : exn) :
  loop pow c fuel s = Some (Throw e) <->
  exists n sn,
    (n < fuel)%nat /\ iterations pow c n s = Some sn /\
    guard c sn = true /\ (norm (v sn) =? 0) = true /\
    e = division_by_zero.
Proof.
  revert s. induction fuel as [|fuel IH]; intros s.
  - simpl. split.
    + destruct (guard c s); discriminate.
    + intros (n & sn & Hn & _). lia.
  - cbn [loop]. split.
    + destruct (guard c s) eqn:G; [|discriminate].
      destruct (body pow c s) as [s1|e1] eqn:B.
      * intros H. apply IH in H.
        destruct H as (n & sn & Hn & Hi & Gn & Vn & E).
        exists (S n), sn. cbn [iterations]. rewrite G, B.
        repeat split; auto. lia.
      * intros H. injection H as <-.
        apply body_throws_iff in B. destruct B as [V E].
        exists O, s. repeat split; auto. lia.
    + intros (n & sn & Hn & Hi & Gn & Vn & E).
      destruct n as [|n].
      * injection Hi as <-. rewrite Gn.
        assert (B : body pow c s = Throw e)
          by (apply body_throws_iff; auto).
        now rewrite B.
      * cbn [iterations] in Hi.
        destruct (guard c s) eqn:G; [|discriminate].
        destruct (body pow c s) as [s1|e1] eqn:B; [|discriminate].
        apply IH. exists n, sn. repeat split; auto. lia.
Qed.

End LoopExits.

(** X9.  The sample vectors being lists, the failure of an allocation in
    [push_back] is outside the model.  Within it, [main] ends with the
    division-by-zero error of the vector division exactly when some state
    of the run, reached within the bound with the loop condition true, has
    a speed that compares equal to zero. *)
Theorem main_division_by_zero_iff
  (pow : float -> float -> float) (c : Config) (fuel : nat) :
  main pow c fuel = Some (Throw division_by_zero) <->
  exists n sn,
    (n < fuel)%nat /\ iterations pow c n (init c) = Some sn /\
    (norm (r sn) <? r_mars c) = true /\ (norm (v sn) =? 0) = true.
Proof.
  assert (M : main pow c fuel = Some (Throw division_by_zero) <->
              loop pow c fuel (init c) = Some (Throw division_by_zero)).
  { unfold main.
    destruct (loop pow c fuel (init c)) as [[s|e1]|]; split;
      intros H; try discriminate; now injection H as ->. }
  rewrite M, loop_throw_iff. split.
  - intros (n & sn & Hn & Hi & G & V & _). now exists n, sn.
  - intros (n & sn & Hn & Hi & G & V). now exists n, sn.
Qed.

(** X10.  A position with a NaN component ends the loop: the norm is a
    NaN, the loop condition is false, and the target is reported as not
    reached. *)
Theorem nan_position_ends_loop
  (pow : float -> float -> float) (c : Config) (s : State)
  (H : is_nan (at0 (r s)) || is_nan (at1 (r s)) = true) :
  norm (r s) = nan /\
  (forall fuel, loop pow c fuel s = Some (Ok s)) /\
  reached_mars (summary c s) = false.
Proof.
  destruct (F64Ops.hypot_spec (at0 (r s)) (at1 (r s))) as [Hn _].
  specialize (Hn H). fold (norm (r s)) in Hn.
  destruct (F64Ops.nan_compare (r_mars c)) as (L1 & L2 & _).
  split; [exact Hn|]. split.
  - intros fuel. apply loop_guard_false. unfold guard. now rewrite Hn.
  - unfold summary, reached_mars. now rewrite Hn.
Qed.

Lemma nan_position_ends_loop_massless :
  exists s1,
    iterations pow_cube massless 1 (init massless) = Some s1 /\
    is_nan (at0 (r s1)) = true /\
    loop pow_cube massless 7 s1 = Some (Ok s1) /\
    reached_mars (summary massless s1) = false.
Proof.
  destruct (iterations pow_cube massless 1 (init massless)) as [s1|] eqn:I;
    [|vm_compute in I; discriminate].
  exists s1.
  assert (N : is_nan (at0 (r s1)) = true)
    by (vm_compute in I; injection I as <-; reflexivity).
  destruct (nan_position_ends_loop pow_cube massless s1) as (_ & L & R).
  { now rewrite N. }
  repeat split; auto.
Defined.

(** X11.  A position with an infinite component and no NaN has the norm
    [+infinity]: the loop ends there, and the target is reported as
    reached unless the target radius is a NaN. *)
Theorem infinite_position_ends_loop
  (pow : float -> float -> float) (c : Config) (s : State)
  (Hn : is_nan (at0 (r s)) || is_nan (at1 (r s)) = false)
  (Hi : is_infinity (at0 (r s)) || is_infinity (at1 (r s)) = true) :
  norm (r s) = infinity /\
  (forall fuel, loop pow c fuel s = Some (Ok s)) /\
  reached_mars (summary c s) = negb (is_nan (r_mars c)).
Proof.
  pose proof (F64Ops.hypot_infinity _ _ Hn Hi) as E. fold (norm (r s)) in E.
  destruct (F64Ops.infinity_compare (r_mars c)) as (L1 & L2).
  split; [exact E|]. split.
  - intros fuel. apply loop_guard_false. unfold guard. now rewrite E.
  - unfold summary, reached_mars. now rewrite E.
Qed.

Lemma infinite_position_ends_loop_huge_step :
  exists s1,
    iterations pow_cube huge_step 1 (init huge_step) = Some s1 /\
    r s1 = vec2 neg_infinity infinity /\
    loop pow_cube huge_step 7 s1 = Some (Ok s1) /\
    reached_mars (summary huge_step s1) = true.
Proof.
  destruct (iterations pow_cube huge_step 1 (init huge_step)) as [s1|] eqn:I;
    [|vm_compute in I; discriminate].
  exists s1.
  assert (R : r s1 = vec2 neg_infinity infinity)
    by (vm_compute in I; injection I as <-; reflexivity).
  destruct (infinite_position_ends_loop pow_cube huge_step s1) as (_ & L & Y);
    try (rewrite R; reflexivity).
  repeat split; auto.
Defined.

(** X12.  A target radius that is not strictly positive (zero, negative or
    a NaN) makes the loop condition false in every state: the loop runs no
    iteration, and the target is reported as reached exactly when neither
    the target nor the norm of the position is a NaN. *)
Theorem no_iteration_without_positive_target
  (pow : float -> float -> float) (c : Config) (s : State)
  (H : (0 <? r_mars c) = false) :
  (forall fuel, loop pow c fuel s = Some (Ok s)) /\
  reached_mars (summary c s)
    = negb (is_nan (r_mars c)) && negb (is_nan (norm (r s))).
Proof.
  destruct (F64Ops.hypot_spec (at0 (r s)) (at1 (r s))) as [Hn Hs].
  fold (norm (r s)) in Hn, Hs.
  destruct (is_nan (at0 (r s)) || is_nan (at1 (r s))).
  - pose proof (Hn eq_refl) as E.
    destruct (F64Ops.nan_compare (r_mars c)) as (L1 & L2 & _).
    split.
    + intros fuel. apply loop_guard_false. unfold guard. now rewrite E.
    + unfold summary, reached_mars. rewrite E, L2.
      now rewrite andb_false_r.
  - specialize (Hs eq_refl).
    destruct (F64.sign_false_leb (norm (r s)) Hs) as (_ & _ & Nn & _).
    split.
    + intros fuel. apply loop_guard_false. unfold guard.
      now apply F64Ops.ltb_not_positive.
    + rewrite Nn, andb_true_r. unfold summary, reached_mars.
      destruct (is_nan (r_mars c)) eqn:M.
      * apply F64Ops.is_nan_eq in M. rewrite M.
        apply F64Ops.nan_leb.
      * now apply F64Ops.leb_not_positive.
Qed.

Lemma no_iteration_without_positive_target_behind :
  (0 <? r_mars behind) = false /\
  (forall fuel,
     loop pow_cube behind fuel (init behind) = Some (Ok (init behind))) /\
  reached_mars (summary behind (init behind)) = true.
Proof.
  assert (H : (0 <? r_mars behind) = false) by reflexivity.
  destruct (no_iteration_without_positive_target pow_cube behind
              (init behind) H) as (L & R).
  split; [exact H|]. split; [exact L|]. rewrite R. reflexivity.
Defined.

(** X13.  What [main] prints at normal termination is fixed by the number
    [n] of completed iterations: the final mass is the initial mass with
    [mdot * dt] subtracted [n] times, the travel time is [dt] added [n]
    times and divided by [3.154e7], the final radius is not below the
    target, and the flag compares the target with that radius. *)
Theorem main_report
  (pow : float -> float -> float) (c : Config) (fuel : nat) (rep : Report)
  (H : main pow c fuel = Some (Ok rep)) :
  exists n s,
    (n <= fuel)%nat /\ iterations pow c n (init c) = Some s /\
    final_radius rep = norm (r s) /\
    (final_radius rep <? r_mars c) = false /\
    reached_mars rep = (r_mars c <=? final_radius rep) /\
    final_mass rep = depleted c n /\
    travel_time rep = elapsed (dt c) n / 3.154e7.
Proof.
  unfold main in H.
  destruct (loop pow c fuel (init c)) as [[s|e]|] eqn:L; try discriminate.
  injection H as <-.
  destruct (loop_exit_inv pow c fuel (init c) s L) as (n & Hn & Hi & G).
  destruct (iterations_counters pow c n s Hi) as (_ & _ & Ht & Hm).
  exists n, s. unfold summary. cbn [final_radius reached_mars final_mass
                                   travel_time].
  rewrite Ht, Hm. repeat split; auto.
Qed.

Lemma main_report_coarse :
  exists rep,
    main pow_cube coarse 10 = Some (Ok rep) /\
    exists n s,
      (n <= 10)%nat /\ iterations pow_cube coarse n (init coarse) = Some s /\
      final_radius rep = norm (r s) /\
      (final_radius rep <? r_mars coarse) = false /\
      reached_mars rep = (r_mars coarse <=? final_radius rep) /\
      final_mass rep = depleted coarse n /\
      travel_time rep = elapsed (dt coarse) n / 3.154e7.
Proof.
  destruct (main pow_cube coarse 10) as [[rep|e]|] eqn:M;
    [|vm_compute in M; discriminate|vm_compute in M; discriminate].
  exists rep. split; [reflexivity|].
  exact (main_report pow_cube coarse 10 rep M).
Defined.

(** X14.  With a gravitational parameter of zero and an initial radius that
    is neither zero nor a NaN, the initial velocity has norm zero.  The run
    is then one of two, whatever [std::pow] returns: if the loop condition
    [norm((r_earth, 0)) < r_mars] holds at the start, the first iteration
    throws the division-by-zero error; if it does not, the loop runs no
    iteration and [main] ends normally in the initial state. *)
Theorem main_without_gravity
  (pow : float -> float -> float) (c : Config)
  (Hmu : (mu c =? 0) = true)
  (Hr : (r_earth c =? 0) = false) (Hn : is_nan (r_earth c) = false) :
  (norm (v (init c)) =? 0) = true /\
  ((norm (vec2 (r_earth c) 0) <? r_mars c) = true ->
   forall fuel, main pow c (S fuel) = Some (Throw division_by_zero)) /\
  ((norm (vec2 (r_earth c) 0) <? r_mars c) = false ->
   forall fuel, main pow c fuel = Some (Ok (summary c (init c)))).
Proof.
  assert (V : (norm (v (init c)) =? 0) = true).
  { pose proof (F64Ops.zero_div _ _ Hmu Hr Hn) as Z.
    apply F64.eqb_zero_iff in Z. unfold init. cbn [v].
    destruct Z as [Z|Z]; rewrite Z; reflexivity. }
  split; [exact V|]. split.
  - intros Hg fuel. unfold main. cbn [loop].
    change (guard c (init c)) with (norm (vec2 (r_earth c) 0) <? r_mars c).
    rewrite Hg.
    assert (B : body pow c (init c) = Throw division_by_zero)
      by (apply body_throws_iff; auto).
    now rewrite B.
  - intros Hg fuel. unfold main.
    now rewrite (loop_guard_false pow c fuel (init c) Hg).
Qed.

Lemma main_without_gravity_still :
  (norm (v (init still)) =? 0) = true /\
  main pow_cube still 5 = Some (Throw division_by_zero).
Proof.
  destruct (main_without_gravity pow_cube still) as (V & Th & _);
    try reflexivity.
  split; [exact V|]. apply (Th eq_refl 4%nat).
Defined.

(** X15.  A NaN in the mass or in a component of the velocity poisons the
    step: when the body completes, the new velocity and the new position
    are the vector of NaNs, so the loop ends in the new state and the
    target is reported as not reached. *)
Theorem nan_poisons_step
  (pow : float -> float -> float) (c : Config) (s s' : State)
  (B : body pow c s = Ok s')
  (H : is_nan (m s) || (is_nan (at0 (v s)) || is_nan (at1 (v s))) = true) :
  v s' = vec2 nan nan /\ r s' = vec2 nan nan /\
  (forall fuel, loop pow c fuel s' = Some (Ok s')) /\
  reached_mars (summary c s') = false.
Proof.
  assert (A : accel pow c s = Ok (vec2 nan nan)).
  { unfold body in B. unfold accel, a_thrust, vdiv in *.
    destruct (norm (v s) =? 0) eqn:Z; [discriminate B|]. cbn [bind].
    unfold vadd, smul. cbn [at0 at1]. apply orb_true_iff in H.
    destruct H as [H|H].
    - apply F64Ops.is_nan_eq in H. rewrite H, F64Ops.div_nan_r.
      now rewrite !F64.mul_nan_l, !F64.add_nan_r.
    - destruct (F64Ops.hypot_spec (at0 (v s)) (at1 (v s))) as [Hn _].
      specialize (Hn H). fold (norm (v s)) in Hn.
      rewrite Hn, !F64Ops.div_nan_r, !F64Ops.mul_nan_r.
      now rewrite !F64.add_nan_r. }
  unfold body in B. rewrite A in B. cbn [bind] in B.
  injection B as <-. cbn [v r]. unfold vmul, vadd. cbn [at0 at1].
  rewrite !F64.mul_nan_l, !F64.add_nan_r, !F64.mul_nan_l, !F64.add_nan_r.
  destruct (F64Ops.nan_compare (r_mars c)) as (L1 & L2 & _).
  repeat split.
  - intros fuel. now apply loop_guard_false.
  - exact L2.
Qed.

Lemma nan_poisons_step_unweighed :
  exists s1,
    iterations pow_cube unweighed 1 (init unweighed) = Some s1 /\
    v s1 = vec2 nan nan /\ r s1 = vec2 nan nan /\
    (forall fuel, loop pow_cube unweighed fuel s1 = Some (Ok s1)) /\
    reached_mars (summary unweighed s1) = false.
Proof.
  destruct (body pow_cube unweighed (init unweighed)) as [s1|e] eqn:B;
    [|vm_compute in B; discriminate].
  exists s1. split.
  - cbn [iterations]. rewrite B.
    change (guard unweighed (init unweighed)) with true. reflexivity.
  - apply (nan_poisons_step pow_cube unweighed (init unweighed) s1 B).
    reflexivity.
Defined.
